(** * DarkTodo: the state and persistence layer of the task-list application

    A shallow embedding of the logic of the application component
    (types [Todo], [Filter], [Theme]; helpers [loadTodos], [saveTodos],
    [loadTheme], [saveTheme], [generateId]; actions [addTodo], [toggleTodo],
    [deleteTodo], [clearCompleted], [toggleTheme]; derived state
    [filteredTodos], [activeCount], [completedCount]), followed by the
    properties of the specification proved about it.

    Conventions.
    - A JavaScript string is its sequence of UTF-16 code units, a [list N].
    - A TypeScript string-literal union is an inductive type.
    - The React state of the component is a record; an action is a function
      from state to state (every [setTodos(prev => ...)] is a functional
      update of the one field).
    - Code that touches [localStorage], [console] or throws runs in a small
      state-and-exception monad over a [World]. *)

From Stdlib Require Import NArith ZArith List Bool String Ascii Lia DecimalN.
From stdpp Require Import base list gmap.
Import ListNotations.

Local Open Scope N_scope.

(* ================================================================== *)
(** ** JavaScript strings *)

Abbreviation jsstring := (list N) (only parsing).

(** A source literal, as code units. *)
Definition str (s : string) : jsstring :=
  List.map N_of_ascii (list_ascii_of_string s).

(** [!s] for a string: only the empty string is falsy. *)
Definition falsy (s : jsstring) : bool :=
  match s with [] => true | _ :: _ => false end.

(** [a === b] on strings. *)
Definition str_eqb (a b : jsstring) : bool := bool_decide (a = b).

(* ================================================================== *)
(** ** Types *)

Record Todo := mkTodo {
  id : jsstring;
  text : jsstring;
  completed : bool;
  createdAt : jsstring
}.

Inductive Filter := All | Active | Completed.
Inductive Theme := Light | Dark.

(** The four [useState] cells of [App]. *)
Record AppState := mkApp {
  todos : list Todo;
  theme : Theme;
  filter : Filter;
  inputValue : jsstring
}.

Definition setTodos (f : list Todo -> list Todo) (st : AppState) : AppState :=
  {| todos := f (todos st); theme := theme st;
     filter := filter st; inputValue := inputValue st |}.

Definition setTheme (f : Theme -> Theme) (st : AppState) : AppState :=
  {| todos := todos st; theme := f (theme st);
     filter := filter st; inputValue := inputValue st |}.

Definition setFilter (f : Filter) (st : AppState) : AppState :=
  {| todos := todos st; theme := theme st;
     filter := f; inputValue := inputValue st |}.

Definition setInputValue (v : jsstring) (st : AppState) : AppState :=
  {| todos := todos st; theme := theme st;
     filter := filter st; inputValue := v |}.

(* ================================================================== *)
(** ** Actions on the task list *)

(** [{ ...t, completed: !t.completed }] *)
Definition flip_completed (t : Todo) : Todo :=
  {| id := id t; text := text t;
     completed := negb (completed t); createdAt := createdAt t |}.

(** [prev.map(t => t.id === id ? { ...t, completed: !t.completed } : t)] *)
Definition toggleTodo (i : jsstring) (st : AppState) : AppState :=
  setTodos (List.map (fun t => if str_eqb (id t) i then flip_completed t else t)) st.

(** [prev.filter(t => t.id !== id)] *)
Definition deleteTodo (i : jsstring) (st : AppState) : AppState :=
  setTodos (List.filter (fun t => negb (str_eqb (id t) i))) st.

(** [prev.filter(t => !t.completed)] *)
Definition clearCompleted (st : AppState) : AppState :=
  setTodos (List.filter (fun t => negb (completed t))) st.

(** [prev === 'dark' ? 'light' : 'dark'] *)
Definition toggleTheme (st : AppState) : AppState :=
  setTheme (fun prev => match prev with Dark => Light | Light => Dark end) st.

(* ================================================================== *)
(** ** Derived state *)

Definition filteredTodos (st : AppState) : list Todo :=
  List.filter
    (fun t =>
       match filter st with
       | Active => negb (completed t)
       | Completed => completed t
       | All => true
       end)
    (todos st).

Definition activeCount (st : AppState) : nat :=
  length (List.filter (fun t => negb (completed t)) (todos st)).

Definition completedCount (st : AppState) : nat :=
  length (List.filter (fun t => completed t) (todos st)).

(* ================================================================== *)
(** ** String helpers used by the actions *)

(** The code units [String.prototype.trim] strips: WhiteSpace and
    LineTerminator of ECMAScript (TAB, LF, VT, FF, CR, SP, NBSP, U+1680,
    U+2000..U+200A, U+2028, U+2029, U+202F, U+205F, U+3000, U+FEFF). *)
Definition is_js_space (c : N) : bool :=
  ((9 <=? c) && (c <=? 13)) || (c =? 32) || (c =? 160) || (c =? 5760)
  || ((8192 <=? c) && (c <=? 8202)) || (c =? 8232) || (c =? 8233)
  || (c =? 8239) || (c =? 8287) || (c =? 12288) || (c =? 65279).

Fixpoint trimStart (s : jsstring) : jsstring :=
  match s with
  | [] => []
  | c :: r => if is_js_space c then trimStart r else s
  end.

Definition trimEnd (s : jsstring) : jsstring := rev (trimStart (rev s)).

Definition trim (s : jsstring) : jsstring := trimEnd (trimStart s).

(** [s.slice(from, to)] for [0 <= from <= to]. *)
Definition slice (from to : nat) (s : jsstring) : jsstring :=
  firstn (to - from) (skipn from s).

Definition digit_char (d : N) : N := 48 + d.

Fixpoint uint_digits (d : Decimal.uint) : jsstring :=
  match d with
  | Decimal.Nil => []
  | Decimal.D0 r => digit_char 0 :: uint_digits r
  | Decimal.D1 r => digit_char 1 :: uint_digits r
  | Decimal.D2 r => digit_char 2 :: uint_digits r
  | Decimal.D3 r => digit_char 3 :: uint_digits r
  | Decimal.D4 r => digit_char 4 :: uint_digits r
  | Decimal.D5 r => digit_char 5 :: uint_digits r
  | Decimal.D6 r => digit_char 6 :: uint_digits r
  | Decimal.D7 r => digit_char 7 :: uint_digits r
  | Decimal.D8 r => digit_char 8 :: uint_digits r
  | Decimal.D9 r => digit_char 9 :: uint_digits r
  end.

(** Number-to-string of a non-negative integer below 10^21: its decimal
    digits. *)
Definition decimal (n : N) : jsstring := uint_digits (N.to_uint n).

(** Decimal digits, zero-padded on the left to [width]. *)
Definition pad (width : nat) (n : N) : jsstring :=
  let ds := decimal n in
  repeat (digit_char 0) (width - length ds) ++ ds.

(** *** [Date.prototype.toISOString] of a time value (milliseconds since
    the epoch, not before it).  The calendar date is computed from the day
    number in the proleptic Gregorian calendar, by 400-year eras starting
    on the first of March. *)
Definition civil_from_days (days : N) : N * N * N :=
  let z := days + 719468 in
  let era := z / 146097 in
  let doe := z mod 146097 in
  let yoe := (doe - doe / 1460 + doe / 36524 - doe / 146096) / 365 in
  let y := yoe + era * 400 in
  let doy := doe - (365 * yoe + yoe / 4 - yoe / 100) in
  let mp := (5 * doy + 2) / 153 in
  let d := doy - (153 * mp + 2) / 5 + 1 in
  let m := if mp <? 10 then mp + 3 else mp - 9 in
  (if m <=? 2 then y + 1 else y, m, d).

Definition toISOString (ms : N) : jsstring :=
  let '(y, m, d) := civil_from_days (ms / 86400000) in
  let t := ms mod 86400000 in
  (if y <=? 9999 then pad 4 y else str "+" ++ pad 6 y)
  ++ str "-" ++ pad 2 m ++ str "-" ++ pad 2 d
  ++ str "T" ++ pad 2 (t / 3600000)
  ++ str ":" ++ pad 2 (t / 60000 mod 60)
  ++ str ":" ++ pad 2 (t / 1000 mod 60)
  ++ str "." ++ pad 3 (t mod 1000) ++ str "Z".

(** What the environment hands to one run of [addTodo]: the reading of
    [Date.now()], the value of [Math.random().toString(36)] (the base-36
    rendering of a double in [0,1) is taken as given), and the reading of
    the clock by [new Date()]. *)
Record Draw := mkDraw {
  Date_now : N;
  Math_random_toString36 : jsstring;
  new_Date : N
}.

(** [`${Date.now()}-${Math.random().toString(36).slice(2, 9)}`] *)
Definition generateId (d : Draw) : jsstring :=
  decimal (Date_now d) ++ str "-" ++ slice 2 9 (Math_random_toString36 d).

Definition addTodo (d : Draw) (st : AppState) : AppState :=
  let text := trim (inputValue st) in
  if falsy text then st
  else
    let newTodo :=
      {| id := generateId d;
         text := text;
         completed := false;
         createdAt := toISOString (new_Date d) |} in
    setInputValue [] (setTodos (fun prev => newTodo :: prev) st).

(* ================================================================== *)
(** ** The world outside the component: storage and console *)

Inductive JsError := SecurityError | QuotaExceededError | SyntaxError.

(** [localStorage] is a map from keys to strings.  Reading it throws when
    access to the store is denied, writing it throws when the store
    refuses the write (denied, or quota exceeded).  [console] collects the
    calls of [console.error], latest first. *)
Record World := mkWorld {
  localStorage : gmap (list N) (list N);
  storage_readable : bool;
  storage_writable : bool;
  console : list (string * JsError)
}.

Inductive Outcome (A : Type) :=
| Return (a : A)
| Throw (e : JsError).
Arguments Return {A} a.
Arguments Throw {A} e.

Definition Eff (A : Type) : Type := World -> Outcome A * World.

Definition ret {A} (a : A) : Eff A := fun w => (Return a, w).

Definition throw {A} (e : JsError) : Eff A := fun w => (Throw e, w).

Definition bind {A B} (m : Eff A) (k : A -> Eff B) : Eff B :=
  fun w =>
    match m w with
    | (Return a, w') => k a w'
    | (Throw e, w') => (Throw e, w')
    end.

(** [try { m } catch (err) { h err }] *)
Definition try_catch {A} (m : Eff A) (h : JsError -> Eff A) : Eff A :=
  fun w =>
    match m w with
    | (Return a, w') => (Return a, w')
    | (Throw e, w') => h e w'
    end.

Notation "'let*' x ':=' m 'in' k" := (bind m (fun x => k))
  (at level 10, x name, m at level 100, k at level 200).
Notation "m ';;' k" := (bind m (fun _ => k))
  (at level 100, k at level 200, right associativity).

Definition getItem (key : jsstring) : Eff (option jsstring) :=
  fun w =>
    if storage_readable w then (Return (localStorage w !! key), w)
    else (Throw SecurityError, w).

Definition setItem (key value : jsstring) : Eff unit :=
  fun w =>
    if storage_writable w then
      (Return tt,
       {| localStorage := <[key := value]> (localStorage w);
          storage_readable := storage_readable w;
          storage_writable := storage_writable w;
          console := console w |})
    else (Throw QuotaExceededError, w).

(** The world after [console.error(message, err)]. *)
Definition log_error (message : string) (err : JsError) (w : World) : World :=
  {| localStorage := localStorage w;
     storage_readable := storage_readable w;
     storage_writable := storage_writable w;
     console := (message, err) :: console w |}.

Definition console_error (message : string) (err : JsError) : Eff unit :=
  fun w => (Return tt, log_error message err w).

(** *** Storage keys *)

Definition STORAGE_ITEMS : jsstring := str "darktodo_items".
Definition STORAGE_THEME : jsstring := str "darktodo_theme".

(* ================================================================== *)
(** ** Theme persistence *)

Definition theme_literal (t : Theme) : jsstring :=
  match t with Light => str "light" | Dark => str "dark" end.

Definition loadTheme : Eff Theme :=
  try_catch
    (let* raw := getItem STORAGE_THEME in
     match raw with
     | Some r =>
         if str_eqb r (str "dark") then ret Dark
         else if str_eqb r (str "light") then ret Light
         else ret Light
     | None => ret Light
     end)
    (fun err =>
       console_error "Failed to load theme from localStorage" err ;;
       ret Light).

Definition saveTheme (t : Theme) : Eff unit :=
  try_catch
    (setItem STORAGE_THEME (theme_literal t))
    (fun err => console_error "Failed to save theme to localStorage" err).

(* ================================================================== *)
(** ** JSON *)

(** The values [JSON.parse] builds.  A number is kept as the token it was
    read from (nothing below looks at the value of a number); an object is the
    list of its members in source order, where a later member with the same
    key overrides an earlier one. *)
#[local] Set Warnings "-register-all".
Inductive json :=
| JNull
| JBool (b : bool)
| JNumber (token : list N)
| JString (s : list N)
| JArray (items : list json)
| JObject (members : list (list N * json)).

(** *** [JSON.stringify] at the type [Todo[]] *)

Definition hex_digit (d : N) : N := if d <? 10 then 48 + d else 87 + d.

(** [\uXXXX], four lower-case hexadecimal digits. *)
Definition unicode_escape (c : N) : jsstring :=
  [92; 117; hex_digit (c / 4096 mod 16); hex_digit (c / 256 mod 16);
   hex_digit (c / 16 mod 16); hex_digit (c mod 16)].

Definition is_high_surrogate (c : N) : bool := (55296 <=? c) && (c <=? 56319).
Definition is_low_surrogate (c : N) : bool := (56320 <=? c) && (c <=? 57343).

(** One code unit that is not half of a surrogate pair. *)
Definition quote_unit (c : N) : jsstring :=
  if c =? 8 then [92; 98]             (* b: backspace *)
  else if c =? 9 then [92; 116]       (* t: tab *)
  else if c =? 10 then [92; 110]      (* n: line feed *)
  else if c =? 12 then [92; 102]      (* f: form feed *)
  else if c =? 13 then [92; 114]      (* r: carriage return *)
  else if c =? 34 then [92; 34]       (* quotation mark *)
  else if c =? 92 then [92; 92]       (* backslash *)
  else if (c <? 32) || is_high_surrogate c || is_low_surrogate c
       then unicode_escape c
  else [c].

(** The body of QuoteJSONString: the string is read by code points, so a
    high surrogate followed by a low one is copied, a lone surrogate is
    escaped. *)
Fixpoint quote_chars (s : jsstring) : jsstring :=
  match s with
  | [] => []
  | c :: r =>
      match r with
      | c' :: r' =>
          if is_high_surrogate c && is_low_surrogate c'
          then c :: c' :: quote_chars r'
          else quote_unit c ++ quote_chars r
      | [] => quote_unit c
      end
  end.

Definition QuoteJSONString (s : jsstring) : jsstring :=
  34 :: quote_chars s ++ [34].

Definition stringify_bool (b : bool) : jsstring :=
  if b then str "true" else str "false".

(** SerializeJSONObject of a [Todo]: its four own properties in the order
    the object literal of [addTodo] creates them (the spread in
    [toggleTodo] keeps that order). *)
Definition stringify_todo (t : Todo) : jsstring :=
  str "{" ++ QuoteJSONString (str "id") ++ str ":" ++ QuoteJSONString (id t)
  ++ str "," ++ QuoteJSONString (str "text") ++ str ":" ++ QuoteJSONString (text t)
  ++ str "," ++ QuoteJSONString (str "completed") ++ str ":" ++ stringify_bool (completed t)
  ++ str "," ++ QuoteJSONString (str "createdAt") ++ str ":" ++ QuoteJSONString (createdAt t)
  ++ str "}".

Fixpoint join_comma (parts : list jsstring) : jsstring :=
  match parts with
  | [] => []
  | [p] => p
  | p :: ps => p ++ str "," ++ join_comma ps
  end.

(** SerializeJSONArray, no indentation. *)
Definition JSON_stringify (ts : list Todo) : jsstring :=
  str "[" ++ join_comma (List.map stringify_todo ts) ++ str "]".

(** The JavaScript value a [Todo] is. *)
Definition todo_value (t : Todo) : json :=
  JObject [(str "id", JString (id t));
           (str "text", JString (text t));
           (str "completed", JBool (completed t));
           (str "createdAt", JString (createdAt t))].

Definition todos_value (ts : list Todo) : json :=
  JArray (List.map todo_value ts).

(** *** [JSON.parse] *)

(** JSON white space: TAB, LF, CR, SP. *)
Definition is_json_ws (c : N) : bool :=
  (c =? 9) || (c =? 10) || (c =? 13) || (c =? 32).

Fixpoint skip_ws (s : jsstring) : jsstring :=
  match s with
  | [] => []
  | c :: r => if is_json_ws c then skip_ws r else s
  end.

Definition hex_value (c : N) : option N :=
  if (48 <=? c) && (c <=? 57) then Some (c - 48)
  else if (97 <=? c) && (c <=? 102) then Some (c - 87)
  else if (65 <=? c) && (c <=? 70) then Some (c - 55)
  else None.

Definition hex4 (a b c d : N) : option N :=
  match hex_value a, hex_value b, hex_value c, hex_value d with
  | Some x3, Some x2, Some x1, Some x0 =>
      Some (4096 * x3 + 256 * x2 + 16 * x1 + x0)
  | _, _, _, _ => None
  end.

(** The code unit a single-character escape stands for. *)
Definition simple_escape (e : N) : option N :=
  if e =? 34 then Some 34        (* quotation mark *)
  else if e =? 92 then Some 92   (* backslash *)
  else if e =? 47 then Some 47   (* solidus *)
  else if e =? 98 then Some 8    (* b: backspace *)
  else if e =? 102 then Some 12  (* f: form feed *)
  else if e =? 110 then Some 10  (* n: line feed *)
  else if e =? 114 then Some 13  (* r: carriage return *)
  else if e =? 116 then Some 9   (* t: tab *)
  else None.

Definition cons_unit (c : N) (r : option (jsstring * jsstring))
  : option (jsstring * jsstring) :=
  match r with
  | Some (x, rest) => Some (c :: x, rest)
  | None => None
  end.

(** The characters of a string after its opening quote, up to and
    including the closing quote: the string read, and the input left. *)
Fixpoint parse_string_chars (s : jsstring) : option (jsstring * jsstring) :=
  match s with
  | [] => None
  | c :: r =>
      if c =? 34 then Some ([], r)
      else if c =? 92 then
        match r with
        | [] => None
        | e :: r1 =>
            match simple_escape e with
            | Some u => cons_unit u (parse_string_chars r1)
            | None =>
                if e =? 117 then
                  match r1 with
                  | h3 :: h2 :: h1 :: h0 :: r2 =>
                      match hex4 h3 h2 h1 h0 with
                      | Some u => cons_unit u (parse_string_chars r2)
                      | None => None
                      end
                  | _ => None
                  end
                else None
            end
        end
      else if c <? 32 then None
      else cons_unit c (parse_string_chars r)
  end.

Definition is_digit (c : N) : bool := (48 <=? c) && (c <=? 57).

Fixpoint span_digits (s : jsstring) : jsstring * jsstring :=
  match s with
  | [] => ([], [])
  | c :: r =>
      if is_digit c then let '(ds, rest) := span_digits r in (c :: ds, rest)
      else ([], s)
  end.

(** An optional leading code unit satisfying [p]. *)
Definition optional (p : N -> bool) (s : jsstring) : jsstring * jsstring :=
  match s with
  | c :: r => if p c then ([c], r) else ([], s)
  | [] => ([], s)
  end.

(** One or more digits. *)
Definition digits1 (s : jsstring) : option (jsstring * jsstring) :=
  match span_digits s with
  | ([], _) => None
  | (ds, rest) => Some (ds, rest)
  end.

(** A number token: an optional minus sign; a zero, or a non-zero digit
    and any digits; optionally a point and one or more digits; optionally
    an exponent mark, a sign and one or more digits. *)
Definition parse_int_part (s : jsstring) : option (jsstring * jsstring) :=
  match s with
  | [] => None
  | c :: r =>
      if c =? 48 then Some ([c], r)
      else if is_digit c then
        let '(ds, rest) := span_digits r in Some (c :: ds, rest)
      else None
  end.

Definition parse_frac_part (s : jsstring) : option (jsstring * jsstring) :=
  match s with
  | c :: r =>
      if c =? 46 then
        match digits1 r with
        | Some (ds, rest) => Some (c :: ds, rest)
        | None => None
        end
      else Some ([], s)
  | [] => Some ([], s)
  end.

Definition parse_exp_part (s : jsstring) : option (jsstring * jsstring) :=
  match s with
  | c :: r =>
      if (c =? 101) || (c =? 69) then
        let '(sign, r1) := optional (fun g => (g =? 43) || (g =? 45)) r in
        match digits1 r1 with
        | Some (ds, rest) => Some (c :: sign ++ ds, rest)
        | None => None
        end
      else Some ([], s)
  | [] => Some ([], s)
  end.

Definition parse_number (s : jsstring) : option (jsstring * jsstring) :=
  let '(sign, s1) := optional (fun c => c =? 45) s in
  match parse_int_part s1 with
  | None => None
  | Some (int, s2) =>
      match parse_frac_part s2 with
      | None => None
      | Some (frac, s3) =>
          match parse_exp_part s3 with
          | None => None
          | Some (exp, s4) => Some (sign ++ int ++ frac ++ exp, s4)
          end
      end
  end.

(** [Some rest] when [s] starts with [p]. *)
Fixpoint strip_prefix (p s : jsstring) : option jsstring :=
  match p with
  | [] => Some s
  | a :: p' =>
      match s with
      | b :: s' => if a =? b then strip_prefix p' s' else None
      | [] => None
      end
  end.

(** What a parser returns: a value and the input left, a syntax error, or
    that its recursion budget ran out. *)
Inductive presult (A : Type) :=
| POk (a : A) (rest : list N)
| PError
| PFuel.
Arguments POk {A} a rest.
Arguments PError {A}.
Arguments PFuel {A}.

(** Recursive descent.  [parse_value] reads one value after optional white
    space; [parse_elements] reads the elements of a non-empty array up to
    and including its closing bracket; [parse_members] the members of a
    non-empty object up to and including its closing brace. *)
Fixpoint parse_value (fuel : nat) (s : jsstring) : presult json :=
  match fuel with
  | O => PFuel
  | S fuel' =>
      match skip_ws s with
      | [] => PError
      | c :: r =>
          if c =? 34 then
            match parse_string_chars r with
            | Some (x, rest) => POk (JString x) rest
            | None => PError
            end
          else if c =? 91 then
            match skip_ws r with
            | [] => PError
            | c' :: r' =>
                if c' =? 93 then POk (JArray []) r'
                else
                  match parse_elements fuel' r with
                  | POk vs rest => POk (JArray vs) rest
                  | PError => PError
                  | PFuel => PFuel
                  end
            end
          else if c =? 123 then
            match skip_ws r with
            | [] => PError
            | c' :: r' =>
                if c' =? 125 then POk (JObject []) r'
                else
                  match parse_members fuel' r with
                  | POk ms rest => POk (JObject ms) rest
                  | PError => PError
                  | PFuel => PFuel
                  end
            end
          else
            match strip_prefix (str "true") (c :: r) with
            | Some rest => POk (JBool true) rest
            | None =>
            match strip_prefix (str "false") (c :: r) with
            | Some rest => POk (JBool false) rest
            | None =>
            match strip_prefix (str "null") (c :: r) with
            | Some rest => POk JNull rest
            | None =>
            match parse_number (c :: r) with
            | Some (tok, rest) => POk (JNumber tok) rest
            | None => PError
            end end end end
      end
  end
with parse_elements (fuel : nat) (s : jsstring) : presult (list json) :=
  match fuel with
  | O => PFuel
  | S fuel' =>
      match parse_value fuel' s with
      | POk v r =>
          match skip_ws r with
          | [] => PError
          | c :: r' =>
              if c =? 44 then
                match parse_elements fuel' r' with
                | POk vs rest => POk (v :: vs) rest
                | PError => PError
                | PFuel => PFuel
                end
              else if c =? 93 then POk [v] r'
              else PError
          end
      | PError => PError
      | PFuel => PFuel
      end
  end
with parse_members (fuel : nat) (s : jsstring)
  : presult (list (list N * json)) :=
  match fuel with
  | O => PFuel
  | S fuel' =>
      match skip_ws s with
      | [] => PError
      | q :: r0 =>
          if q =? 34 then
            match parse_string_chars r0 with
            | None => PError
            | Some (key, r1) =>
                match skip_ws r1 with
                | [] => PError
                | colon :: r2 =>
                    if colon =? 58 then
                      match parse_value fuel' r2 with
                      | POk v r3 =>
                          match skip_ws r3 with
                          | [] => PError
                          | c :: r4 =>
                              if c =? 44 then
                                match parse_members fuel' r4 with
                                | POk ms rest => POk ((key, v) :: ms) rest
                                | PError => PError
                                | PFuel => PFuel
                                end
                              else if c =? 125 then POk [(key, v)] r4
                              else PError
                          end
                      | PError => PError
                      | PFuel => PFuel
                      end
                    else PError
                end
            end
          else PError
      end
  end.

(** The budget: every level of the recursion but the first has read at
    least one code unit, and an element or member costs two levels. *)
Definition parse_fuel (s : jsstring) : nat := 2 * length s + 1.

(** [JSON.parse(s)]: one value, then only white space; [None] is the
    SyntaxError. *)
Definition JSON_parse (s : jsstring) : option json :=
  match parse_value (parse_fuel s) s with
  | POk v rest =>
      match skip_ws rest with
      | [] => Some v
      | _ :: _ => None
      end
  | PError => None
  | PFuel => None
  end.

(* ================================================================== *)
(** ** Task persistence *)

(** [JSON.parse(raw) as Todo[]]: the parsed value is returned as it is;
    the cast is erased at run time. *)
Definition loadTodos : Eff json :=
  try_catch
    (let* raw := getItem STORAGE_ITEMS in
     match raw with
     | None => ret (JArray [])
     | Some r =>
         if falsy r then ret (JArray [])
         else
           match JSON_parse r with
           | Some v => ret v
           | None => throw SyntaxError
           end
     end)
    (fun err =>
       console_error "Failed to load todos from localStorage" err ;;
       ret (JArray [])).

Definition saveTodos (ts : list Todo) : Eff unit :=
  try_catch
    (setItem STORAGE_ITEMS (JSON_stringify ts))
    (fun err => console_error "Failed to save todos to localStorage" err).

(** The two persistence effects of [App], in the order they are declared:
    [saveTheme(theme)], then [saveTodos(todos)].  (The class list of the
    document root is not part of the model.) *)
Definition persist (st : AppState) : Eff unit :=
  saveTheme (theme st) ;; saveTodos (todos st).

(** *** Reading a value at the type [Todo[]] *)

(** [o[key]] on a parsed object: the last member with that key. *)
Fixpoint get_member (key : jsstring) (ms : list (list N * json)) : option json :=
  match ms with
  | [] => None
  | (k, v) :: rest =>
      match get_member key rest with
      | Some v' => Some v'
      | None => if str_eqb k key then Some v else None
      end
  end.

Definition as_string (v : option json) : option jsstring :=
  match v with Some (JString s) => Some s | _ => None end.

Definition as_bool (v : option json) : option bool :=
  match v with Some (JBool b) => Some b | _ => None end.

(** The [Todo] a value is, when it is an object whose four fields have the
    declared types. *)
Definition as_Todo (v : json) : option Todo :=
  match v with
  | JObject ms =>
      match as_string (get_member (str "id") ms),
            as_string (get_member (str "text") ms),
            as_bool (get_member (str "completed") ms),
            as_string (get_member (str "createdAt") ms) with
      | Some i, Some t, Some c, Some d =>
          Some {| id := i; text := t; completed := c; createdAt := d |}
      | _, _, _, _ => None
      end
  | _ => None
  end.

Fixpoint as_Todos_list (vs : list json) : option (list Todo) :=
  match vs with
  | [] => Some []
  | v :: rest =>
      match as_Todo v, as_Todos_list rest with
      | Some t, Some ts => Some (t :: ts)
      | _, _ => None
      end
  end.

(** The task sequence a value is, when it is an array of [Todo]. *)
Definition as_Todos (v : json) : option (list Todo) :=
  match v with
  | JArray vs => as_Todos_list vs
  | _ => None
  end.

(* ================================================================== *)
(** ** Vocabulary of the specification *)

(** [r] is exactly the subsequence of [c] of the elements satisfying [P]:
    a subsequence of [c] (relative order kept), all of whose elements
    satisfy [P], and which contains every subsequence of [c] whose
    elements satisfy [P]. *)
Definition subsequence_where (P : Todo -> Prop) (c r : list Todo) : Prop :=
  sublist r c /\ Forall P r /\
  forall k, sublist k c -> Forall P k -> sublist k r.

(** [visible(c, mode)]: the derived view of the task list of a state
    when its filter is [mode]; the state is any state of the component,
    whatever its theme, its input and its current filter. *)
Definition visible (st : AppState) (mode : Filter) : list Todo :=
  filteredTodos (setFilter mode st).

(** A state whose task list is [c]. *)
Definition state_of (c : list Todo) : AppState :=
  {| todos := c; theme := Light; filter := All; inputValue := [] |}.

(** Adding with a fresh id, as the specification words it: after an add
    with text that is not blank, the id of the new first task differs from
    the id of every task that was in the list. *)
Definition add_gives_fresh_id (d : Draw) (st : AppState) : Prop :=
  trim (inputValue st) <> [] ->
  exists t, todos (addTodo d st) = t :: todos st
    /\ forall u, u ∈ todos st -> id u <> id t.

(** The task sequence a stored text stands for, if any. *)
Definition content_as_Todos (raw : list N) : option (list Todo) :=
  match JSON_parse raw with
  | Some v => as_Todos v
  | None => None
  end.

(** Falling back on malformed content, as the specification words it:
    stored content that cannot be read as a sequence of tasks makes
    [loadTodos] log the failure and return the empty sequence. *)
Definition load_falls_back (w : World) (raw : list N) : Prop :=
  storage_readable w = true ->
  localStorage w !! STORAGE_ITEMS = Some raw ->
  content_as_Todos raw = None ->
  exists err,
    loadTodos w
    = (Return (JArray []),
       log_error "Failed to load todos from localStorage" err w).

(* ================================================================== *)
(** ** Sample data *)

Definition taskA : Todo :=
  mkTodo (str "1700000000000-i") (str "A") false (str "2023-11-14T22:13:20.000Z").

Definition taskB : Todo :=
  mkTodo (str "1700000000123-4fzyo82") (str "B") true (str "2023-11-14T22:13:20.123Z").

(** The clock reads 1700000000000 and [Math.random()] is one half, whose
    base-36 rendering is [0.i]. *)
Definition draw_half : Draw :=
  mkDraw 1700000000000 (str "0.i") 1700000000000.

(** A working store holding [items] under the task key and [th] under the
    theme key (nothing where [None]). *)
Definition world_with (items th : option (list N)) : World :=
  {| localStorage :=
       match items, th with
       | Some i, Some t => <[STORAGE_THEME := t]> (<[STORAGE_ITEMS := i]> ∅)
       | Some i, None => <[STORAGE_ITEMS := i]> ∅
       | None, Some t => <[STORAGE_THEME := t]> ∅
       | None, None => ∅
       end;
     storage_readable := true;
     storage_writable := true;
     console := [] |}.

(** A store that refuses every access. *)
Definition world_denied : World :=
  {| localStorage := ∅; storage_readable := false;
     storage_writable := false; console := [] |}.

(* ================================================================== *)
(** ** The component: handlers, effects, view *)

(** [if (e.key === 'Enter') addTodo()] *)
Definition handleKeyDown (key : jsstring) (d : Draw) (st : AppState) : AppState :=
  if str_eqb key (str "Enter") then addTodo d st else st.

(** What the user can do to the rendered component, one constructor per
    event handler of the markup: typing in the input ([onChange]), the Add
    button, a key pressed in the input ([onKeyDown]), the checkbox and the
    delete button of a row (which pass the id of their task), a filter
    tab, the Clear Completed button, the theme button.  An action that can
    reach [addTodo] carries the draw that run would use. *)
Inductive Action :=
| ChangeInput (value : list N)
| ClickAdd (d : Draw)
| KeyDown (key : list N) (d : Draw)
| ClickCheckbox (i : list N)
| ClickDelete (i : list N)
| ClickFilter (f : Filter)
| ClickClearCompleted
| ClickThemeToggle.

Definition handle (a : Action) (st : AppState) : AppState :=
  match a with
  | ChangeInput v => setInputValue v st
  | ClickAdd d => addTodo d st
  | KeyDown key d => handleKeyDown key d st
  | ClickCheckbox i => toggleTodo i st
  | ClickDelete i => deleteTodo i st
  | ClickFilter f => setFilter f st
  | ClickClearCompleted => clearCompleted st
  | ClickThemeToggle => toggleTheme st
  end.

(** The draw an action hands to [generateId], when the action adds a
    task in state [st]. *)
Definition adds (a : Action) (st : AppState) : option Draw :=
  match a with
  | ClickAdd d => if falsy (trim (inputValue st)) then None else Some d
  | KeyDown key d =>
      if str_eqb key (str "Enter")
      then (if falsy (trim (inputValue st)) then None else Some d)
      else None
  | _ => None
  end.

(** The class list of the document root, an ordered set of tokens. *)
Definition classList_add (c : jsstring) (l : list (list N)) : list (list N) :=
  if bool_decide (c ∈ l) then l else l ++ [c].

Definition classList_remove (c : jsstring) (l : list (list N)) : list (list N) :=
  List.filter (fun x => negb (str_eqb x c)) l.

(** The page the component lives in: the world of storage and console,
    and the class list of [document.documentElement]. *)
Record Browser := mkBrowser {
  world : World;
  rootClassList : list (list N)
}.

(** The effect on [theme]: set or clear the class [dark] on the root, then
    [saveTheme(theme)]. *)
Definition themeEffect (th : Theme) (b : Browser) : Browser :=
  {| world := snd (saveTheme th (world b));
     rootClassList :=
       match th with
       | Dark => classList_add (str "dark") (rootClassList b)
       | Light => classList_remove (str "dark") (rootClassList b)
       end |}.

(** The effect on [todos]: [saveTodos(todos)]. *)
Definition todosEffect (ts : list Todo) (b : Browser) : Browser :=
  {| world := snd (saveTodos ts (world b));
     rootClassList := rootClassList b |}.

(** Whether the handler of an action replaces the [todos] array (a
    [map] or [filter] always builds a new array; an add of blank text
    returns before [setTodos]), so that the effect on [todos] runs
    after it. *)
Definition replaces_todos (a : Action) (st : AppState) : bool :=
  match a with
  | ClickAdd _ => negb (falsy (trim (inputValue st)))
  | KeyDown key _ =>
      str_eqb key (str "Enter") && negb (falsy (trim (inputValue st)))
  | ClickCheckbox _ | ClickDelete _ | ClickClearCompleted => true
  | ChangeInput _ | ClickFilter _ | ClickThemeToggle => false
  end.

(** Whether an action changes the [theme] value, so that the effect on
    [theme] runs after it. *)
Definition changes_theme (a : Action) : bool :=
  match a with
  | ClickThemeToggle => true
  | _ => false
  end.

(** One event: the handler updates the state, then the effects whose
    dependency changed run, in the order they are declared. *)
Definition dispatch (a : Action) (s : AppState * Browser) : AppState * Browser :=
  let st' := handle a (fst s) in
  let b1 := if changes_theme a then themeEffect (theme st') (snd s) else snd s in
  let b2 := if replaces_todos a (fst s) then todosEffect (todos st') b1 else b1 in
  (st', b2).

Definition run (acts : list Action) (s : AppState * Browser) : AppState * Browser :=
  fold_left (fun s a => dispatch a s) acts s.

(** A value that is exactly what [JSON.stringify] writes for a task: the
    four properties, in order, with the declared types. *)
Definition exactly_Todo (v : json) : option Todo :=
  match v with
  | JObject [(k1, JString i); (k2, JString t); (k3, JBool c); (k4, JString d)] =>
      if str_eqb k1 (str "id") && str_eqb k2 (str "text")
         && str_eqb k3 (str "completed") && str_eqb k4 (str "createdAt")
      then Some {| id := i; text := t; completed := c; createdAt := d |}
      else None
  | _ => None
  end.

Fixpoint exactly_Todos_list (vs : list json) : option (list Todo) :=
  match vs with
  | [] => Some []
  | v :: rest =>
      match exactly_Todo v, exactly_Todos_list rest with
      | Some t, Some ts => Some (t :: ts)
      | _, _ => None
      end
  end.

Definition exactly_Todos (v : json) : option (list Todo) :=
  match v with
  | JArray vs => exactly_Todos_list vs
  | _ => None
  end.

(** The values the two state cells are initialised with:
    [useState(loadTodos)], then [useState(loadTheme)].  The first is the
    loaded value as it is, whatever its shape. *)
Definition initialValues : Eff (json * Theme) :=
  let* v := loadTodos in
  let* th := loadTheme in
  ret (v, th).

(** The initial state, where the state record can hold it: the loaded
    value read as a task list as the component writes it, the loaded
    theme, filter [all], empty input.  [None] says that the loaded value
    is some other JSON value; the component then runs on that value, and
    this record, whose task list is typed, does not follow it. *)
Definition initialState : Eff (option AppState) :=
  let* v := loadTodos in
  let* th := loadTheme in
  ret (match exactly_Todos v with
       | Some c => Some {| todos := c; theme := th; filter := All; inputValue := [] |}
       | None => None
       end).

(** The effects of the first render on a state, in the order they are
    declared: the effect on [theme], then the effect on [todos]. *)
Definition mountEffects (st : AppState) (b : Browser) : Browser :=
  todosEffect (todos st) (themeEffect (theme st) b).

(** Mounting the component where [initialState] is defined: the initial
    state, then both effects.  [None] only says that the loaded value is
    outside the typed state, not that the component fails. *)
Definition mount (b : Browser) : option (AppState * Browser) :=
  match initialState (world b) with
  | (Return (Some st), w) =>
      Some (st,
            todosEffect (todos st)
              (themeEffect (theme st)
                 {| world := w; rootClassList := rootClassList b |}))
  | _ => None
  end.

(** What [App] renders, as far as it depends on the state: the theme
    attribute of the container, the label of the theme button, the rows
    (one [TodoItem] per visible task), the placeholder [EmptyState] with
    the filter it is given, and the footer with the text of the counter
    and whether the Clear Completed button is there. *)
Record View := mkView {
  data_theme : Theme;
  theme_toggle_label : string;
  rows : list Todo;
  empty_state : option Filter;
  footer : option (list N * bool)
}.

Definition render (st : AppState) : View :=
  {| data_theme := theme st;
     theme_toggle_label :=
       match theme st with
       | Dark => "Switch to light mode"%string
       | Light => "Switch to dark mode"%string
       end;
     rows := filteredTodos st;
     empty_state :=
       if Nat.eqb (length (filteredTodos st)) 0 then Some (filter st) else None;
     footer :=
       if Nat.ltb 0 (length (todos st)) then
         Some (decimal (N.of_nat (activeCount st)) ++ str " "
               ++ (if Nat.eqb (activeCount st) 1 then str "item" else str "items")
               ++ str " left",
               Nat.ltb 0 (completedCount st))
       else None |}.

(** *** Vocabulary for the properties of the component *)

(** The ids of a task list. *)
Definition ids (c : list Todo) : list (list N) := List.map id c.

(** Two tasks that differ at most in their completed flag. *)
Definition same_task (t t' : Todo) : Prop :=
  id t' = id t /\ text t' = text t /\ createdAt t' = createdAt t.

(** A text as [addTodo] stores it: not empty, no white space at either
    end. *)
Definition clean_text (s : list N) : Prop := s <> [] /\ trim s = s.

(** The draws of the actions of a run that can add a task. *)
Definition draws (acts : list Action) : list Draw :=
  flat_map (fun a => match a with
                     | ClickAdd d => [d]
                     | KeyDown _ d => [d]
                     | _ => []
                     end) acts.


(** The store holds the serialized task list and the theme literal of a
    state (nothing is said of the page). *)
Definition store_holds (st : AppState) (w : World) : Prop :=
  localStorage w !! STORAGE_ITEMS = Some (JSON_stringify (todos st))
  /\ localStorage w !! STORAGE_THEME = Some (theme_literal (theme st)).

(** Every add of a run generates an id that is not in the list at that
    moment. *)
Fixpoint fresh_adds (acts : list Action) (st : AppState) : Prop :=
  match acts with
  | [] => True
  | a :: rest =>
      (forall d, adds a st = Some d -> generateId d ∉ ids (todos st))
      /\ fresh_adds rest (handle a st)
  end.

(** The state a reload starts from: the task list and the theme kept,
    the filter and the input reset. *)
Definition reloaded (st : AppState) : AppState :=
  {| todos := todos st; theme := theme st; filter := All; inputValue := [] |}.

(** *** More sample data *)

Definition browser_empty : Browser :=
  {| world := world_with None None; rootClassList := [] |}.

Definition draw_later : Draw :=
  mkDraw 1700000000123 (str "0.4fzyo82mvyr") 1700000000123.

(** A session in the dark theme, with a task, a filter and a half-typed
    input. *)
Definition state_dark : AppState := mkApp [taskA] Dark Active (str "x").

(** A fresh document (no class on the root) over a working store to which
    [state_dark] was persisted. *)
Definition browser_after_dark : Browser :=
  {| world := snd (persist state_dark (world_with None None));
     rootClassList := [] |}.

(* ================================================================== *)
(** * Properties *)

(* ------------------------------------------------------------------ *)
(** ** The model on concrete inputs *)

Example toISOString_epoch :
  toISOString 0 = str "1970-01-01T00:00:00.000Z".
Proof. vm_compute. reflexivity. Qed.

Example toISOString_2023 :
  toISOString 1700000000000 = str "2023-11-14T22:13:20.000Z".
Proof. vm_compute. reflexivity. Qed.

Example toISOString_leap_day :
  toISOString 951782400000 = str "2000-02-29T00:00:00.000Z".
Proof. vm_compute. reflexivity. Qed.

Example toISOString_last_four_digit_year :
  toISOString 253402300799999 = str "9999-12-31T23:59:59.999Z".
Proof. vm_compute. reflexivity. Qed.

Example toISOString_expanded_year :
  toISOString 253402300800000 = str "+010000-01-01T00:00:00.000Z".
Proof. vm_compute. reflexivity. Qed.

Example trim_sample : trim (str "  a b  ") = str "a b".
Proof. vm_compute. reflexivity. Qed.

Example trim_blank : trim [32; 9; 160; 8232; 65279] = [].
Proof. vm_compute. reflexivity. Qed.

Example generateId_sample :
  generateId (mkDraw 1700000000000 (str "0.4fzyo82mvyr") 1700000000000)
  = str "1700000000000-4fzyo82".
Proof. vm_compute. reflexivity. Qed.

Example generateId_half : generateId draw_half = str "1700000000000-i".
Proof. vm_compute. reflexivity. Qed.

Example JSON_parse_sample :
  JSON_parse (str "[1, {}, true ,null, -1.5e+3, [[]] ]")
  = Some (JArray [JNumber (str "1"); JObject []; JBool true; JNull;
                  JNumber (str "-1.5e+3"); JArray [JArray []]]).
Proof. vm_compute. reflexivity. Qed.

Example JSON_parse_rejects :
  JSON_parse (str "[1,]") = None /\ JSON_parse (str "01") = None
  /\ JSON_parse (str "{a:1}") = None /\ JSON_parse (str " ") = None
  /\ JSON_parse (str "[[[") = None /\ JSON_parse (str "1.") = None.
Proof. vm_compute. repeat split. Qed.

(** A control character, a quote, a surrogate pair and a lone surrogate. *)
Example QuoteJSONString_sample :
  QuoteJSONString [1; 34; 55357; 56832; 55357; 65]
  = [34; 92; 117; 48; 48; 48; 49; 92; 34; 55357; 56832;
     92; 117; 100; 56; 51; 100; 65; 34].
Proof. vm_compute. reflexivity. Qed.

(** Scenario: starting empty, adding "A" then "B" gives the order B, A,
    both active. *)
Example scenario_two_adds :
  let st1 := addTodo draw_half (setInputValue (str "A") (state_of [])) in
  let st2 := addTodo (mkDraw 1700000000123 (str "0.4fzyo82mvyr") 1700000000123)
               (setInputValue (str "B") st1) in
  List.map text (todos st2) = [str "B"; str "A"] /\ activeCount st2 = 2%nat.
Proof. vm_compute. split; reflexivity. Qed.

(** Scenario: add "X", toggle it, clear the completed tasks. *)
Example scenario_toggle_clear :
  let st1 := addTodo draw_half (setInputValue (str "X") (state_of [])) in
  let st2 := toggleTodo (str "1700000000000-i") st1 in
  activeCount st2 = 0%nat /\ completedCount st2 = 1%nat
  /\ todos (clearCompleted st2) = [].
Proof. vm_compute. repeat split. Qed.

(** What [loadTodos] does with stored text that is JSON but no task list. *)
Example loadTodos_not_tasks :
  loadTodos (world_with (Some (str "[1]")) None)
  = (Return (JArray [JNumber (str "1")]), world_with (Some (str "[1]")) None)
  /\ content_as_Todos (str "[1]") = None.
Proof. vm_compute. split; reflexivity. Qed.

Example loadTodos_denied :
  loadTodos world_denied
  = (Return (JArray []),
     log_error "Failed to load todos from localStorage" SecurityError world_denied).
Proof. reflexivity. Qed.

Example saveTodos_refused :
  saveTodos [taskA] world_denied
  = (Return tt,
     log_error "Failed to save todos to localStorage" QuotaExceededError world_denied).
Proof. reflexivity. Qed.

(* ------------------------------------------------------------------ *)
(** ** Lists filtered by a boolean test *)

Section Filtered.
Context {A : Type} (f : A -> bool).

Lemma filter_sublist (l : list A) : sublist (List.filter f l) l.
Proof.
  induction l as [|x l IH]; simpl.
  - constructor.
  - destruct (f x); now constructor.
Qed.

Lemma filter_Forall (l : list A) :
  Forall (fun x => f x = true) (List.filter f l).
Proof.
  induction l as [|x l IH]; simpl; [constructor|].
  destruct (f x) eqn:E; [constructor|]; assumption.
Qed.

Lemma filter_greatest (l k : list A) :
  sublist k l -> Forall (fun x => f x = true) k -> sublist k (List.filter f l).
Proof.
  induction 1 as [|x k l Hs IH|x k l Hs IH]; intros HF; simpl.
  - constructor.
  - inversion HF as [|? ? Hx HF']; subst. rewrite Hx.
    constructor. now apply IH.
  - destruct (f x); [constructor|]; now apply IH.
Qed.

Lemma filter_all_true (l : list A) :
  (forall x, x ∈ l -> f x = true) -> List.filter f l = l.
Proof.
  induction l as [|x l IH]; intros H; simpl; [reflexivity|].
  rewrite (H x) by constructor.
  f_equal. apply IH. intros y Hy. apply H. now constructor.
Qed.

Lemma filter_split_length (l : list A) :
  (length (List.filter (fun x => negb (f x)) l)
   + length (List.filter f l) = length l)%nat.
Proof.
  induction l as [|x l IH]; simpl; [reflexivity|].
  destruct (f x); simpl; lia.
Qed.

Lemma filter_split_perm (l : list A) :
  (List.filter (fun x => negb (f x)) l ++ List.filter f l) ≡ₚ l.
Proof.
  induction l as [|x l IH]; simpl; [reflexivity|].
  destruct (f x); simpl.
  - rewrite <- Permutation_middle. now constructor.
  - now constructor.
Qed.

Lemma elem_of_filter_bool (l : list A) (x : A) :
  x ∈ List.filter f l <-> x ∈ l /\ f x = true.
Proof.
  rewrite !list_elem_of_In. apply filter_In.
Qed.
End Filtered.

Lemma str_eqb_eq (a b : list N) : str_eqb a b = true <-> a = b.
Proof. unfold str_eqb. apply bool_decide_eq_true. Qed.

Lemma str_eqb_neq (a b : list N) : str_eqb a b = false <-> a <> b.
Proof. unfold str_eqb. apply bool_decide_eq_false. Qed.

Lemma str_eqb_refl (a : list N) : str_eqb a a = true.
Proof. now apply str_eqb_eq. Qed.

(* ------------------------------------------------------------------ *)
(** ** Toggle, delete, clear *)

Lemma flip_completed_involutive (t : Todo) :
  flip_completed (flip_completed t) = t.
Proof. destruct t as [i x c d]. unfold flip_completed. simpl. now rewrite negb_involutive. Qed.

Lemma subsequence_where_filter (f : Todo -> bool) (c : list Todo) :
  subsequence_where (fun t => f t = true) c (List.filter f c).
Proof.
  repeat split.
  - apply filter_sublist.
  - apply filter_Forall.
  - intros k Hk HF. now apply filter_greatest.
Qed.

Lemma subsequence_where_ext (P Q : Todo -> Prop) (c r : list Todo) :
  (forall t, P t <-> Q t) -> subsequence_where P c r -> subsequence_where Q c r.
Proof.
  intros HPQ (Hs & HF & Hg). repeat split.
  - exact Hs.
  - eapply Forall_impl; [exact HF|]. intros t. apply HPQ.
  - intros k Hk HQ. apply Hg; [exact Hk|].
    eapply Forall_impl; [exact HQ|]. intros t. apply HPQ.
Qed.

(** C3. Toggling the same id twice gives back the state one started from:
    the task list is equal to the original, element by element. *)
Theorem toggleTodo_involutive (i : list N) (st : AppState) :
  toggleTodo i (toggleTodo i st) = st.
Proof.
  destruct st as [c th fl iv]. unfold toggleTodo, setTodos. simpl. f_equal.
  rewrite List.map_map.
  induction c as [|t c IH]; simpl; [reflexivity|].
  rewrite IH. f_equal.
  destruct (str_eqb (id t) i) eqn:E.
  - simpl. rewrite E. apply flip_completed_involutive.
  - now rewrite E.
Qed.

(** C4. When no task of the list has the id, both toggling and deleting
    that id leave the state, hence the list, as it was. *)
Theorem unmatched_id_noop (i : list N) (st : AppState) :
  (forall t, t ∈ todos st -> id t <> i) ->
  toggleTodo i st = st /\ deleteTodo i st = st.
Proof.
  destruct st as [c th fl iv]. simpl. intros H.
  unfold toggleTodo, deleteTodo, setTodos. simpl. split; f_equal.
  - induction c as [|t c IH]; simpl; [reflexivity|].
    assert (E : str_eqb (id t) i = false).
    { apply str_eqb_neq. apply H. constructor. }
    rewrite E. f_equal. apply IH. intros u Hu. apply H. now constructor.
  - apply filter_all_true. intros t Ht.
    apply negb_true_iff, str_eqb_neq. now apply H.
Qed.

Lemma unmatched_id_noop_witness :
  toggleTodo (id taskB) (state_of [taskA]) = state_of [taskA]
  /\ deleteTodo (id taskB) (state_of [taskA]) = state_of [taskA].
Proof.
  apply (unmatched_id_noop (id taskB) (state_of [taskA])).
  intros t Ht. simpl in Ht. apply list_elem_of_singleton in Ht. subst t.
  vm_compute. discriminate.
Defined.

(** C5. In every state of the component, whatever its theme and its
    input: the rendered view is the view at the filter of the state; the
    view under [All] is the task list itself; under [Active] it is exactly
    the subsequence of the tasks not completed; under [Completed] exactly
    the subsequence of the completed ones; and the two filtered views
    split the list: each task of the list is in one of them and not in the
    other, and together they hold the tasks of the list with their
    multiplicities. *)
Theorem visible_spec (st : AppState) :
  filteredTodos st = visible st (filter st)
  /\ visible st All = todos st
  /\ subsequence_where (fun t => completed t = false) (todos st) (visible st Active)
  /\ subsequence_where (fun t => completed t = true) (todos st) (visible st Completed)
  /\ (forall t, t ∈ todos st ->
        (t ∈ visible st Active /\ (t ∉ visible st Completed))
        \/ ((t ∉ visible st Active) /\ t ∈ visible st Completed))
  /\ (visible st Active ++ visible st Completed) ≡ₚ todos st.
Proof.
  destruct st as [c th fl iv].
  unfold visible, filteredTodos, setFilter. cbn [todos filter].
  split; [reflexivity|]. split; [|split; [|split; [|split]]].
  - apply filter_all_true. reflexivity.
  - eapply subsequence_where_ext; [|apply subsequence_where_filter].
    intros t. simpl. apply negb_true_iff.
  - apply subsequence_where_filter.
  - intros t Ht. rewrite !elem_of_filter_bool.
    destruct (completed t) eqn:E; simpl; [right|left]; intuition congruence.
  - apply (filter_split_perm completed).
Qed.

Lemma visible_spec_witness :
  (taskA ∈ visible (mkApp [taskB; taskA] Dark Completed (str "x")) Active
   /\ (taskA ∉ visible (mkApp [taskB; taskA] Dark Completed (str "x")) Completed))
  \/ ((taskA ∉ visible (mkApp [taskB; taskA] Dark Completed (str "x")) Active)
      /\ taskA ∈ visible (mkApp [taskB; taskA] Dark Completed (str "x")) Completed).
Proof.
  apply (proj1 (proj2 (proj2 (proj2 (proj2
           (visible_spec (mkApp [taskB; taskA] Dark Completed (str "x")))))))).
  apply list_elem_of_In. simpl. right. left. reflexivity.
Defined.

(** C6. The number of tasks not completed plus the number of completed
    tasks is the length of the list. *)
Theorem counts_add_up (st : AppState) :
  (activeCount st + completedCount st = length (todos st))%nat.
Proof.
  unfold activeCount, completedCount. apply (filter_split_length completed).
Qed.

(** C8. Clearing keeps exactly the subsequence of the tasks not completed,
    in their order, and touches nothing else in the state; when no task is
    completed the state is unchanged. *)
Theorem clearCompleted_spec (st : AppState) :
  subsequence_where (fun t => completed t = false)
    (todos st) (todos (clearCompleted st))
  /\ (forall t, t ∈ todos (clearCompleted st) <-> t ∈ todos st /\ completed t = false)
  /\ theme (clearCompleted st) = theme st
  /\ filter (clearCompleted st) = filter st
  /\ inputValue (clearCompleted st) = inputValue st
  /\ ((forall t, t ∈ todos st -> completed t = false) -> clearCompleted st = st).
Proof.
  destruct st as [c th fl iv]. unfold clearCompleted, setTodos. simpl.
  repeat split; try tauto.
  - apply filter_sublist.
  - eapply Forall_impl; [apply filter_Forall|]. intros t. simpl. apply negb_true_iff.
  - intros k Hk HF. apply filter_greatest; [exact Hk|].
    eapply Forall_impl; [exact HF|]. intros t. simpl. apply negb_true_iff.
  - apply elem_of_filter_bool in H. tauto.
  - apply elem_of_filter_bool in H. now apply negb_true_iff.
  - intros [H1 H2]. apply elem_of_filter_bool. split; [exact H1|now apply negb_true_iff].
  - intros H. f_equal. apply filter_all_true. intros t Ht.
    apply negb_true_iff. now apply H.
Qed.

Lemma clearCompleted_spec_witness :
  clearCompleted (state_of [taskA]) = state_of [taskA].
Proof.
  apply (proj2 (proj2 (proj2 (proj2 (proj2
           (clearCompleted_spec (state_of [taskA]))))))).
  intros t Ht. simpl in Ht. apply list_elem_of_singleton in Ht. subst t.
  reflexivity.
Defined.

(** C10. Toggling keeps the length and the positions of the list: at each
    position the task keeps its id, text and creation time; a task with
    another id is unchanged, a task with the id has its completed flag
    negated.  The rest of the state is untouched. *)
Theorem toggleTodo_frame (i : list N) (st : AppState) :
  length (todos (toggleTodo i st)) = length (todos st)
  /\ (forall (n : nat) (t : Todo), todos st !! n = Some t ->
        exists t', todos (toggleTodo i st) !! n = Some t'
          /\ id t' = id t /\ text t' = text t /\ createdAt t' = createdAt t
          /\ (id t <> i -> t' = t)
          /\ (id t = i -> completed t' = negb (completed t)))
  /\ theme (toggleTodo i st) = theme st
  /\ filter (toggleTodo i st) = filter st
  /\ inputValue (toggleTodo i st) = inputValue st.
Proof.
  destruct st as [c th fl iv]. unfold toggleTodo, setTodos. simpl.
  repeat split.
  - apply length_map.
  - intros n t Hn.
    exists (if str_eqb (id t) i then flip_completed t else t).
    split.
    { change (List.map ?f c) with (f <$> c).
      rewrite list_lookup_fmap, Hn. reflexivity. }
    destruct (str_eqb (id t) i) eqn:E; simpl; repeat split; try reflexivity.
    + intros Hne. apply str_eqb_eq in E. contradiction.
    + intros He. apply str_eqb_neq in E. contradiction.
Qed.

Lemma toggleTodo_frame_witness :
  exists t', todos (toggleTodo (id taskA) (state_of [taskB; taskA])) !! 1%nat = Some t'
    /\ id t' = id taskA /\ text t' = text taskA
    /\ createdAt t' = createdAt taskA
    /\ (id taskA <> id taskA -> t' = taskA)
    /\ (id taskA = id taskA -> completed t' = negb (completed taskA)).
Proof.
  apply (proj1 (proj2 (toggleTodo_frame (id taskA) (state_of [taskB; taskA])))
           1%nat taskA).
  reflexivity.
Defined.

(** Deleting an id that was just deleted changes nothing. *)
Lemma deleteTodo_idempotent (i : list N) (st : AppState) :
  deleteTodo i (deleteTodo i st) = deleteTodo i st.
Proof.
  destruct st as [c th fl iv]. unfold deleteTodo, setTodos. simpl. f_equal.
  induction c as [|t c IH]; simpl; [reflexivity|].
  destruct (negb (str_eqb (id t) i)) eqn:E; simpl; [|exact IH].
  rewrite E. now f_equal.
Qed.

(** Switching the theme twice gives back the theme. *)
Lemma toggleTheme_involutive (st : AppState) :
  toggleTheme (toggleTheme st) = st.
Proof. destruct st as [c [|] fl iv]; reflexivity. Qed.

(* ------------------------------------------------------------------ *)
(** ** Trimming and identifiers *)

Lemma trimStart_nil_iff (s : list N) :
  trimStart s = [] <-> Forall (fun c => is_js_space c = true) s.
Proof.
  induction s as [|c s IH]; simpl.
  - split; [constructor|reflexivity].
  - destruct (is_js_space c) eqn:E.
    + rewrite IH. split; [now constructor|].
      intros H. now inversion H.
    + split; [discriminate|].
      intros H. inversion H; congruence.
Qed.

Lemma trimStart_head (s r : list N) (c : N) :
  trimStart s = c :: r -> is_js_space c = false.
Proof.
  induction s as [|a s IH]; simpl; [discriminate|].
  destruct (is_js_space a) eqn:E; [exact IH|].
  intros H. injection H as <- _. exact E.
Qed.

Lemma trimStart_suffix (s : list N) : exists p, s = p ++ trimStart s.
Proof.
  induction s as [|a s [p IH]]; simpl.
  - now exists [].
  - destruct (is_js_space a).
    + exists (a :: p). simpl. now f_equal.
    + now exists [].
Qed.

(** The input is blank for [addTodo] exactly when all its code units are
    white space. *)
Lemma trim_nil_iff (s : list N) :
  trim s = [] <-> Forall (fun c => is_js_space c = true) s.
Proof.
  unfold trim, trimEnd. split.
  - intros H. apply (f_equal (@rev N)) in H. rewrite rev_involutive in H.
    simpl in H. apply trimStart_nil_iff in H.
    apply Forall_rev in H. rewrite rev_involutive in H.
    destruct (trimStart_suffix s) as [p Hp].
    destruct (trimStart s) as [|c r] eqn:E.
    + now apply trimStart_nil_iff.
    + apply trimStart_head in E. inversion H; congruence.
  - intros H. apply trimStart_nil_iff in H. rewrite H. reflexivity.
Qed.

(** What is left after trimming neither starts nor ends with white
    space. *)
Lemma trim_ends (s : list N) :
  (forall c r, trim s = c :: r -> is_js_space c = false)
  /\ (forall c r, trim s = r ++ [c] -> is_js_space c = false).
Proof.
  unfold trim, trimEnd. split; intros c r H.
  - destruct (trimStart s) as [|a t] eqn:E; [discriminate|].
    pose proof (trimStart_head _ _ _ E) as Ha.
    destruct (trimStart_suffix (rev (a :: t))) as [p Hp].
    apply (f_equal (@rev N)) in Hp.
    rewrite rev_involutive, rev_app_distr, H in Hp.
    injection Hp as -> _. exact Ha.
  - apply (f_equal (@rev N)) in H.
    rewrite rev_involutive, rev_app_distr in H. simpl in H.
    now apply trimStart_head in H.
Qed.

Lemma uint_digits_are_digits (d : Decimal.uint) :
  Forall (fun c => is_digit c = true) (uint_digits d).
Proof. induction d; simpl; constructor; auto. Qed.

Lemma uint_digits_inj (d d' : Decimal.uint) :
  uint_digits d = uint_digits d' -> d = d'.
Proof.
  revert d'. induction d; intros d' H; destruct d'; simpl in H;
    try discriminate; try reflexivity;
    injection H as H; f_equal; now apply IHd.
Qed.

Lemma decimal_inj (n m : N) : decimal n = decimal m -> n = m.
Proof.
  unfold decimal. intros H. apply uint_digits_inj in H.
  now apply DecimalN.Unsigned.to_uint_inj.
Qed.

Lemma split_at_dash (l1 l2 r1 r2 : list N) :
  Forall (fun c => is_digit c = true) l1 ->
  Forall (fun c => is_digit c = true) l2 ->
  l1 ++ 45 :: r1 = l2 ++ 45 :: r2 -> l1 = l2.
Proof.
  revert l2. induction l1 as [|a l1 IH]; intros l2 H1 H2 H.
  - destruct l2 as [|b l2]; [reflexivity|].
    simpl in H. injection H as <- _. inversion H2; discriminate.
  - destruct l2 as [|b l2].
    + simpl in H. injection H as -> _. inversion H1; discriminate.
    + simpl in H. injection H as <- H. f_equal.
      inversion H1; inversion H2; subst. now apply IH.
Qed.

(** Two identifiers made at different readings of the clock differ. *)
Lemma generateId_clock (d1 d2 : Draw) :
  generateId d1 = generateId d2 -> Date_now d1 = Date_now d2.
Proof.
  unfold generateId. change (str "-") with [45]. cbn [app].
  intros H. apply decimal_inj.
  eapply split_at_dash; [| |exact H]; apply uint_digits_are_digits.
Qed.

(* ------------------------------------------------------------------ *)
(** ** Adding a task *)

Lemma falsy_nil (s : list N) : falsy s = true <-> s = [].
Proof. destruct s; simpl; split; congruence. Qed.

(** C2, as the code has it.  [addTodo] trims the input; a blank input
    leaves the state as it is; otherwise the new list is one longer, its
    first element is a task whose id is the value of [generateId], whose
    text is the trimmed input, which is not completed and whose creation
    time is the clock reading as an ISO string, and the former list
    follows unchanged.  The input field is emptied, theme and filter stay. *)
Theorem addTodo_spec (d : Draw) (st : AppState) :
  (trim (inputValue st) = [] -> addTodo d st = st)
  /\ (trim (inputValue st) <> [] ->
        todos (addTodo d st)
        = {| id := generateId d;
             text := trim (inputValue st);
             completed := false;
             createdAt := toISOString (new_Date d) |} :: todos st
        /\ length (todos (addTodo d st)) = S (length (todos st))
        /\ inputValue (addTodo d st) = []
        /\ theme (addTodo d st) = theme st
        /\ filter (addTodo d st) = filter st).
Proof.
  unfold addTodo. split; intros H.
  - rewrite (proj2 (falsy_nil _) H). reflexivity.
  - destruct (falsy (trim (inputValue st))) eqn:E.
    + apply falsy_nil in E. contradiction.
    + simpl. repeat split.
Qed.

Lemma addTodo_spec_witness :
  todos (addTodo draw_half (setInputValue (str "  Buy groceries ") (state_of [])))
  = [ {| id := str "1700000000000-i";
         text := str "Buy groceries";
         completed := false;
         createdAt := str "2023-11-14T22:13:20.000Z" |} ].
Proof.
  apply (proj1 (proj2 (addTodo_spec draw_half
           (setInputValue (str "  Buy groceries ") (state_of []))) ltac:(vm_compute; discriminate))).
Defined.

(** C2, the counterexample to freshness: a task created in the same
    millisecond with the same random draw is already in the list, and the
    added task gets its id. *)
Lemma add_gives_fresh_id_fails :
  ~ add_gives_fresh_id draw_half (setInputValue (str "B") (state_of [taskA])).
Proof.
  unfold add_gives_fresh_id. intros H.
  destruct H as (t & Ht & Hfresh); [vm_compute; discriminate|].
  apply (Hfresh taskA); [simpl; constructor|].
  simpl in Ht. injection Ht as Ht. subst t. reflexivity.
Qed.

(* ------------------------------------------------------------------ *)
(** ** Loading the theme *)

(** C7. With a readable store, [loadTheme] returns dark when the stored
    value is the literal dark, light when it is the literal light, and
    light for every other stored value and for an absent key; when reading
    the store throws it logs and returns light.  It never throws. *)
Theorem loadTheme_spec (w : World) :
  (storage_readable w = true ->
     (localStorage w !! STORAGE_THEME = Some (str "dark") ->
        loadTheme w = (Return Dark, w))
     /\ (localStorage w !! STORAGE_THEME = Some (str "light") ->
        loadTheme w = (Return Light, w))
     /\ (localStorage w !! STORAGE_THEME <> Some (str "dark") ->
        loadTheme w = (Return Light, w)))
  /\ (storage_readable w = false ->
        fst (loadTheme w) = Return Light
        /\ localStorage (snd (loadTheme w)) = localStorage w
        /\ console (snd (loadTheme w))
           = ("Failed to load theme from localStorage"%string, SecurityError)
               :: console w).
Proof.
  unfold loadTheme, try_catch, bind, getItem, ret, console_error.
  split; intros Hr; rewrite Hr.
  - repeat split; intros H.
    + rewrite H. reflexivity.
    + rewrite H. reflexivity.
    + destruct (localStorage w !! STORAGE_THEME) as [r|] eqn:E; [|reflexivity].
      destruct (str_eqb r (str "dark")) eqn:Ed.
      * apply str_eqb_eq in Ed. subst r. contradiction.
      * destruct (str_eqb r (str "light")); reflexivity.
  - simpl. repeat split.
Qed.

Lemma loadTheme_spec_witness :
  loadTheme (world_with None (Some (str "purple")))
  = (Return Light, world_with None (Some (str "purple"))).
Proof.
  apply (proj2 (proj2 (proj1 (loadTheme_spec (world_with None (Some (str "purple"))))
                         eq_refl))).
  vm_compute. discriminate.
Defined.

(* ------------------------------------------------------------------ *)
(** ** Quoting a string and reading it back *)

Ltac nbool :=
  repeat match goal with
  | H : (_ =? _) = true |- _ => apply N.eqb_eq in H
  | H : (_ =? _) = false |- _ => apply N.eqb_neq in H
  | H : (_ <? _) = true |- _ => apply N.ltb_lt in H
  | H : (_ <? _) = false |- _ => apply N.ltb_ge in H
  | H : (_ <=? _) = true |- _ => apply N.leb_le in H
  | H : (_ <=? _) = false |- _ => apply N.leb_gt in H
  | H : (_ && _) = true |- _ => apply andb_true_iff in H; destruct H
  | H : (_ || _) = false |- _ => apply orb_false_iff in H; destruct H
  | H : (_ && _) = false |- _ => apply andb_false_iff in H; destruct H
  | H : (_ || _) = true |- _ => apply orb_true_iff in H; destruct H
  end.

Lemma hex_value_digit (d : N) : d < 16 -> hex_value (hex_digit d) = Some d.
Proof.
  intros H. unfold hex_digit, hex_value.
  destruct (d <? 10) eqn:E; nbool.
  - replace ((48 <=? 48 + d) && (48 + d <=? 57)) with true.
    + f_equal. lia.
    + symmetry. apply andb_true_iff. split; apply N.leb_le; lia.
  - replace ((48 <=? 87 + d) && (87 + d <=? 57)) with false.
    + replace ((97 <=? 87 + d) && (87 + d <=? 102)) with true.
      * f_equal. lia.
      * symmetry. apply andb_true_iff. split; apply N.leb_le; lia.
    + symmetry. apply andb_false_iff. right. apply N.leb_gt. lia.
Qed.

Lemma hex_digits_sum (c : N) :
  c < 65536 ->
  4096 * (c / 4096 mod 16) + 256 * (c / 256 mod 16)
  + 16 * (c / 16 mod 16) + c mod 16 = c.
Proof.
  intros H.
  pose proof (N.div_mod c 16 ltac:(lia)).
  pose proof (N.div_mod (c / 16) 16 ltac:(lia)).
  pose proof (N.div_mod (c / 256) 16 ltac:(lia)).
  assert (c / 16 / 16 = c / 256) by (rewrite N.Div0.div_div; reflexivity).
  assert (c / 256 / 16 = c / 4096) by (rewrite N.Div0.div_div; reflexivity).
  assert (c / 4096 < 16) by (apply N.Div0.div_lt_upper_bound; lia).
  rewrite (N.mod_small (c / 4096) 16) by assumption.
  lia.
Qed.

Lemma hex4_escape (c : N) :
  c < 65536 ->
  hex4 (hex_digit (c / 4096 mod 16)) (hex_digit (c / 256 mod 16))
       (hex_digit (c / 16 mod 16)) (hex_digit (c mod 16)) = Some c.
Proof.
  intros H. unfold hex4.
  rewrite !hex_value_digit by (apply N.mod_lt; lia).
  f_equal. now apply hex_digits_sum.
Qed.

Lemma parse_string_chars_u (a b c d : N) (T : list N) :
  parse_string_chars (92 :: 117 :: a :: b :: c :: d :: T)
  = match hex4 a b c d with
    | Some u => cons_unit u (parse_string_chars T)
    | None => None
    end.
Proof. reflexivity. Qed.

Lemma parse_string_chars_plain (c : N) (T : list N) :
  c <> 34 -> c <> 92 -> 32 <= c ->
  parse_string_chars (c :: T) = cons_unit c (parse_string_chars T).
Proof.
  intros H1 H2 H3. simpl.
  rewrite (proj2 (N.eqb_neq c 34) H1), (proj2 (N.eqb_neq c 92) H2).
  now rewrite (proj2 (N.ltb_ge c 32) H3).
Qed.

Lemma parse_quote_unit (c : N) (T x rest : list N) :
  parse_string_chars T = Some (x, rest) ->
  parse_string_chars (quote_unit c ++ T) = Some (c :: x, rest).
Proof.
  intros HT. unfold quote_unit.
  destruct (c =? 8) eqn:E8; [nbool; subst; simpl; now rewrite HT|].
  destruct (c =? 9) eqn:E9; [nbool; subst; simpl; now rewrite HT|].
  destruct (c =? 10) eqn:E10; [nbool; subst; simpl; now rewrite HT|].
  destruct (c =? 12) eqn:E12; [nbool; subst; simpl; now rewrite HT|].
  destruct (c =? 13) eqn:E13; [nbool; subst; simpl; now rewrite HT|].
  destruct (c =? 34) eqn:E34; [nbool; subst; simpl; now rewrite HT|].
  destruct (c =? 92) eqn:E92; [nbool; subst; simpl; now rewrite HT|].
  destruct ((c <? 32) || is_high_surrogate c || is_low_surrogate c) eqn:Eu.
  - unfold unicode_escape. cbn [app].
    rewrite parse_string_chars_u, hex4_escape, HT; [reflexivity|].
    unfold is_high_surrogate, is_low_surrogate in Eu. nbool; lia.
  - cbn [app]. nbool.
    rewrite parse_string_chars_plain, HT; [reflexivity| | |]; lia.
Qed.

Lemma parse_surrogate_pair (c c' : N) (T x rest : list N) :
  is_high_surrogate c && is_low_surrogate c' = true ->
  parse_string_chars T = Some (x, rest) ->
  parse_string_chars (c :: c' :: T) = Some (c :: c' :: x, rest).
Proof.
  unfold is_high_surrogate, is_low_surrogate. intros H HT. nbool.
  rewrite !parse_string_chars_plain, HT by lia. reflexivity.
Qed.

Lemma quote_chars_cons2 (c c' : N) (r : list N) :
  quote_chars (c :: c' :: r)
  = if is_high_surrogate c && is_low_surrogate c'
    then c :: c' :: quote_chars r
    else quote_unit c ++ quote_chars (c' :: r).
Proof. reflexivity. Qed.

Lemma parse_quote_chars_bounded (n : nat) :
  forall s rest : list N, (length s <= n)%nat ->
    parse_string_chars (quote_chars s ++ 34 :: rest) = Some (s, rest).
Proof.
  induction n as [|n IH]; intros s rest Hlen.
  - destruct s; [reflexivity|simpl in Hlen; lia].
  - destruct s as [|c [|c' r']]; [reflexivity| |].
    + cbn [quote_chars]. now apply parse_quote_unit.
    + rewrite quote_chars_cons2. simpl in Hlen.
      destruct (is_high_surrogate c && is_low_surrogate c') eqn:E.
      * cbn [app]. apply parse_surrogate_pair; [exact E|].
        apply IH. lia.
      * rewrite <- app_assoc. apply parse_quote_unit.
        apply IH. simpl. lia.
Qed.

(** Reading back a quoted string gives the string, whatever follows the
    closing quote. *)
Lemma parse_quote_chars (s rest : list N) :
  parse_string_chars (quote_chars s ++ 34 :: rest) = Some (s, rest).
Proof. now apply (parse_quote_chars_bounded (length s)). Qed.

(* ------------------------------------------------------------------ *)
(** ** The parser's budget is enough *)

Lemma skip_ws_length (s : list N) : (length (skip_ws s) <= length s)%nat.
Proof.
  induction s as [|c s IH]; simpl; [lia|].
  destruct (is_json_ws c); simpl; lia.
Qed.

Lemma skip_ws_cons_length (s r : list N) (c : N) :
  skip_ws s = c :: r -> (length r < length s)%nat.
Proof.
  intros H. pose proof (skip_ws_length s) as L. rewrite H in L. simpl in L. lia.
Qed.

Lemma cons_unit_Some (c : N) (o : option (list N * list N)) (x r : list N) :
  cons_unit c o = Some (x, r) -> exists x', o = Some (x', r) /\ x = c :: x'.
Proof.
  destruct o as [[x' r']|]; simpl; [|discriminate].
  intros H. injection H as <- <-. eauto.
Qed.

Lemma parse_string_chars_length_bounded (n : nat) :
  forall s x r : list N, (length s <= n)%nat ->
    parse_string_chars s = Some (x, r) -> (length r < length s)%nat.
Proof.
  induction n as [|n IH]; intros s x r Hn H.
  - destruct s; [discriminate|simpl in Hn; lia].
  - destruct s as [|c s]; [discriminate|]. simpl in Hn.
    cbn [parse_string_chars] in H.
    destruct (c =? 34); [injection H as <- <-; simpl; lia|].
    destruct (c =? 92).
    + destruct s as [|e s1]; [discriminate|]. simpl in Hn.
      destruct (simple_escape e).
      * apply cons_unit_Some in H as (x' & H & _).
        apply IH in H; simpl; lia.
      * destruct (e =? 117); [|discriminate].
        destruct s1 as [|h3 [|h2 [|h1 [|h0 s2]]]]; try discriminate.
        destruct (hex4 h3 h2 h1 h0); [|discriminate].
        apply cons_unit_Some in H as (x' & H & _).
        simpl in Hn. apply IH in H; simpl; lia.
    + destruct (c <? 32); [discriminate|].
      apply cons_unit_Some in H as (x' & H & _).
      apply IH in H; simpl; lia.
Qed.

Lemma parse_string_chars_length (s x r : list N) :
  parse_string_chars s = Some (x, r) -> (length r < length s)%nat.
Proof. now apply (parse_string_chars_length_bounded (length s)). Qed.

Lemma span_digits_length (s ds r : list N) :
  span_digits s = (ds, r) -> (length r <= length s)%nat.
Proof.
  revert ds r. induction s as [|c s IH]; intros ds r H; simpl in H.
  - injection H as <- <-. simpl. lia.
  - destruct (is_digit c).
    + destruct (span_digits s) as [ds' r'] eqn:E.
      injection H as <- <-. specialize (IH _ _ eq_refl). simpl. lia.
    + injection H as <- <-. simpl. lia.
Qed.

Lemma digits1_length (s ds r : list N) :
  digits1 s = Some (ds, r) -> (length r <= length s)%nat.
Proof.
  unfold digits1. destruct (span_digits s) as [ds' r'] eqn:E.
  apply span_digits_length in E.
  destruct ds'; [discriminate|]. intros H. injection H as <- <-. exact E.
Qed.

Lemma parse_int_part_length (s tok r : list N) :
  parse_int_part s = Some (tok, r) -> (length r < length s)%nat.
Proof.
  unfold parse_int_part. destruct s as [|c s]; [discriminate|].
  destruct (c =? 48); [intros H; injection H as <- <-; simpl; lia|].
  destruct (is_digit c); [|discriminate].
  destruct (span_digits s) as [ds r'] eqn:E. apply span_digits_length in E.
  intros H. injection H as <- <-. simpl. lia.
Qed.

Lemma parse_frac_part_length (s tok r : list N) :
  parse_frac_part s = Some (tok, r) -> (length r <= length s)%nat.
Proof.
  unfold parse_frac_part. destruct s as [|c s].
  - intros H. injection H as <- <-. lia.
  - destruct (c =? 46).
    + destruct (digits1 s) as [[ds r']|] eqn:E; [|discriminate].
      apply digits1_length in E. intros H. injection H as <- <-. simpl. lia.
    + intros H. injection H as <- <-. lia.
Qed.

Lemma optional_length (p : N -> bool) (s x r : list N) :
  optional p s = (x, r) -> (length r <= length s)%nat.
Proof.
  unfold optional. destruct s as [|c s].
  - intros H. injection H as <- <-. lia.
  - destruct (p c); intros H; injection H as <- <-; simpl; lia.
Qed.

Lemma parse_exp_part_length (s tok r : list N) :
  parse_exp_part s = Some (tok, r) -> (length r <= length s)%nat.
Proof.
  unfold parse_exp_part. destruct s as [|c s].
  - intros H. injection H as <- <-. lia.
  - destruct ((c =? 101) || (c =? 69)).
    + destruct (optional _ s) as [sign r1] eqn:E.
      apply optional_length in E.
      destruct (digits1 r1) as [[ds r']|] eqn:Ed; [|discriminate].
      apply digits1_length in Ed. intros H. injection H as <- <-. simpl. lia.
    + intros H. injection H as <- <-. lia.
Qed.

Lemma parse_number_length (s tok r : list N) :
  parse_number s = Some (tok, r) -> (length r < length s)%nat.
Proof.
  unfold parse_number.
  destruct (optional _ s) as [sign s1] eqn:E.
  apply optional_length in E.
  destruct (parse_int_part s1) as [[int s2]|] eqn:Ei; [|discriminate].
  apply parse_int_part_length in Ei.
  destruct (parse_frac_part s2) as [[frac s3]|] eqn:Ef; [|discriminate].
  apply parse_frac_part_length in Ef.
  destruct (parse_exp_part s3) as [[ex s4]|] eqn:Ee; [|discriminate].
  apply parse_exp_part_length in Ee.
  intros H. injection H as <- <-. lia.
Qed.

Lemma strip_prefix_length (p s r : list N) :
  strip_prefix p s = Some r -> length s = (length p + length r)%nat.
Proof.
  revert s. induction p as [|a p IH]; intros s H; simpl in H.
  - injection H as <-. reflexivity.
  - destruct s as [|b s]; [discriminate|].
    destruct (a =? b); [|discriminate].
    apply IH in H. simpl. lia.
Qed.

Ltac break_hyp H :=
  match type of H with
  | context [match ?x with _ => _ end] =>
      lazymatch x with
      | context [match _ with _ => _ end] => fail
      | _ => destruct x eqn:?
      end
  end.

Ltac length_facts IHv IHe IHm :=
  repeat match goal with
  | H : skip_ws _ = _ :: _ |- _ => apply skip_ws_cons_length in H
  | H : parse_string_chars _ = Some _ |- _ => apply parse_string_chars_length in H
  | H : parse_number _ = Some _ |- _ => apply parse_number_length in H
  | H : strip_prefix _ _ = Some _ |- _ => apply strip_prefix_length in H
  | H : parse_value _ _ = POk _ _ |- _ => apply IHv in H
  | H : parse_elements _ _ = POk _ _ |- _ => apply IHe in H
  | H : parse_members _ _ = POk _ _ |- _ => apply IHm in H
  end.

(** A parser that succeeds has read at least one code unit. *)
Lemma parse_rest_shorter (fuel : nat) :
  (forall s v r, parse_value fuel s = POk v r -> (length r < length s)%nat)
  /\ (forall s vs r, parse_elements fuel s = POk vs r -> (length r < length s)%nat)
  /\ (forall s ms r, parse_members fuel s = POk ms r -> (length r < length s)%nat).
Proof.
  induction fuel as [|f (IHv & IHe & IHm)].
  - repeat split; intros; discriminate.
  - repeat split; intros s v r H;
      cbn [parse_value parse_elements parse_members] in H;
      repeat (break_hyp H; try discriminate);
      injection H as <- <-;
      length_facts IHv IHe IHm; simpl in *; lia.
Qed.

Ltac rest_shorter_facts :=
  repeat match goal with
  | H : skip_ws _ = _ :: _ |- _ => apply skip_ws_cons_length in H
  | H : parse_string_chars _ = Some _ |- _ => apply parse_string_chars_length in H
  | H : parse_value _ _ = POk _ _ |- _ => apply parse_rest_shorter in H
  | H : parse_elements _ _ = POk _ _ |- _ => apply parse_rest_shorter in H
  | H : parse_members _ _ = POk _ _ |- _ => apply parse_rest_shorter in H
  end.

(** With a budget of twice the length of the input and one, no parser
    runs out of budget. *)
Lemma parse_fuel_enough (fuel : nat) :
  (forall s, (2 * length s + 1 <= fuel)%nat -> parse_value fuel s <> PFuel)
  /\ (forall s, (2 * length s + 2 <= fuel)%nat -> parse_elements fuel s <> PFuel)
  /\ (forall s, (2 * length s + 2 <= fuel)%nat -> parse_members fuel s <> PFuel).
Proof.
  induction fuel as [|f (IHv & IHe & IHm)].
  - repeat split; intros s Hf; lia.
  - repeat split; intros s Hf H;
      cbn [parse_value parse_elements parse_members] in H;
      repeat (break_hyp H; try discriminate);
      rest_shorter_facts;
      match goal with
      | E : parse_value f ?a = PFuel |- _ => apply (IHv a); [simpl in *; lia|exact E]
      | E : parse_elements f ?a = PFuel |- _ => apply (IHe a); [simpl in *; lia|exact E]
      | E : parse_members f ?a = PFuel |- _ => apply (IHm a); [simpl in *; lia|exact E]
      end.
Qed.

(** [JSON_parse] answers [None] only for a syntax error: its budget never
    runs out. *)
Lemma JSON_parse_budget (s : list N) : parse_value (parse_fuel s) s <> PFuel.
Proof. apply parse_fuel_enough. unfold parse_fuel. lia. Qed.

(** A result other than running out of budget does not depend on the
    budget. *)
Lemma parse_fuel_mono (fuel : nat) :
  (forall s k, parse_value fuel s <> PFuel ->
               parse_value (fuel + k) s = parse_value fuel s)
  /\ (forall s k, parse_elements fuel s <> PFuel ->
               parse_elements (fuel + k) s = parse_elements fuel s)
  /\ (forall s k, parse_members fuel s <> PFuel ->
               parse_members (fuel + k) s = parse_members fuel s).
Proof.
  induction fuel as [|f (IHv & IHe & IHm)].
  - repeat split; intros s k H; now contradiction H.
  - repeat split; intros s k H; change (S f + k)%nat with (S (f + k));
      cbn [parse_value parse_elements parse_members] in H |- *;
      repeat
        match goal with
        | |- context [parse_value f ?a] =>
            let E := fresh "E" in
            destruct (parse_value f a) eqn:E;
            [rewrite (IHv a k) by (rewrite E; discriminate); rewrite E
            |rewrite (IHv a k) by (rewrite E; discriminate); rewrite E
            |now contradiction H]
        | |- context [parse_elements f ?a] =>
            let E := fresh "E" in
            destruct (parse_elements f a) eqn:E;
            [rewrite (IHe a k) by (rewrite E; discriminate); rewrite E
            |rewrite (IHe a k) by (rewrite E; discriminate); rewrite E
            |now contradiction H]
        | |- context [parse_members f ?a] =>
            let E := fresh "E" in
            destruct (parse_members f a) eqn:E;
            [rewrite (IHm a k) by (rewrite E; discriminate); rewrite E
            |rewrite (IHm a k) by (rewrite E; discriminate); rewrite E
            |now contradiction H]
        | |- ?l = ?r =>
            match r with
            | context [match ?x with _ => _ end] =>
                lazymatch x with
                | context [match _ with _ => _ end] => fail
                | _ => destruct x eqn:?
                end
            end
        end;
      reflexivity.
Qed.

(* ------------------------------------------------------------------ *)
(** ** Writing the task list and reading it back *)

Lemma stringify_todo_cons (t : Todo) (T : list N) :
  stringify_todo t ++ T
  = 123 :: 34 :: quote_chars (str "id") ++ 34 :: 58 ::
             34 :: quote_chars (id t) ++ 34 :: 44 ::
    34 :: quote_chars (str "text") ++ 34 :: 58 ::
             34 :: quote_chars (text t) ++ 34 :: 44 ::
    34 :: quote_chars (str "completed") ++ 34 :: 58 ::
             stringify_bool (completed t) ++ 44 ::
    34 :: quote_chars (str "createdAt") ++ 34 :: 58 ::
             34 :: quote_chars (createdAt t) ++ 34 :: 125 :: T.
Proof.
  unfold stringify_todo, QuoteJSONString.
  change (str "{") with [123]. change (str ":") with [58].
  change (str ",") with [44]. change (str "}") with [125].
  repeat (rewrite <- ?app_assoc; cbn [app]).
  reflexivity.
Qed.

Lemma parse_value_string (f : nat) (x T : list N) :
  parse_value (S f) (34 :: quote_chars x ++ 34 :: T) = POk (JString x) T.
Proof.
  cbn -[parse_string_chars quote_chars]. now rewrite parse_quote_chars.
Qed.

Lemma parse_value_bool (f : nat) (b : bool) (T : list N) :
  parse_value (S f) (stringify_bool b ++ T) = POk (JBool b) T.
Proof. destruct b; reflexivity. Qed.

Lemma parse_value_object (f : nat) (R : list N) :
  parse_value (S f) (123 :: 34 :: R)
  = match parse_members f (34 :: R) with
    | POk ms rest => POk (JObject ms) rest
    | PError => PError
    | PFuel => PFuel
    end.
Proof. reflexivity. Qed.

Lemma parse_members_more (f : nat) (k V R : list N) (v : json) :
  parse_value f V = POk v (44 :: R) ->
  parse_members (S f) (34 :: quote_chars k ++ 34 :: 58 :: V)
  = match parse_members f R with
    | POk ms rest => POk ((k, v) :: ms) rest
    | PError => PError
    | PFuel => PFuel
    end.
Proof.
  intros H. cbn -[parse_value parse_string_chars quote_chars].
  rewrite parse_quote_chars. cbn -[parse_value]. rewrite H. reflexivity.
Qed.

Lemma parse_members_last (f : nat) (k V R : list N) (v : json) :
  parse_value f V = POk v (125 :: R) ->
  parse_members (S f) (34 :: quote_chars k ++ 34 :: 58 :: V) = POk [(k, v)] R.
Proof.
  intros H. cbn -[parse_value parse_string_chars quote_chars].
  rewrite parse_quote_chars. cbn -[parse_value]. rewrite H. reflexivity.
Qed.

Lemma parse_value_todo (f : nat) (t : Todo) (T : list N) :
  parse_value (6 + f) (stringify_todo t ++ T) = POk (todo_value t) T.
Proof.
  rewrite stringify_todo_cons. unfold todo_value.
  change (6 + f)%nat with (S (S (S (S (S (S f)))))).
  rewrite parse_value_object.
  rewrite (parse_members_more _ _ _ _ _ (parse_value_string _ _ _)).
  rewrite (parse_members_more _ _ _ _ _ (parse_value_string _ _ _)).
  rewrite (parse_members_more _ _ _ _ _ (parse_value_bool _ _ _)).
  rewrite (parse_members_last _ _ _ _ _ (parse_value_string _ _ _)).
  reflexivity.
Qed.

Lemma join_comma_cons2 (p q : list N) (ps : list (list N)) :
  join_comma (p :: q :: ps) = p ++ 44 :: join_comma (q :: ps).
Proof. reflexivity. Qed.

Lemma parse_elements_todos (ts : list Todo) :
  forall (t : Todo) (fuel : nat) (T : list N),
    (7 + length ts <= fuel)%nat ->
    parse_elements fuel (join_comma (List.map stringify_todo (t :: ts)) ++ 93 :: T)
    = POk (List.map todo_value (t :: ts)) T.
Proof.
  induction ts as [|u ts IH]; intros t fuel T Hf.
  - destruct fuel as [|fuel]; [simpl in Hf; lia|].
    cbn [List.map join_comma parse_elements].
    replace fuel with (6 + (fuel - 6))%nat by (simpl in Hf; lia).
    rewrite parse_value_todo. reflexivity.
  - destruct fuel as [|fuel]; [simpl in Hf; lia|].
    cbn [List.map]. rewrite join_comma_cons2, <- app_assoc.
    cbn [app parse_elements].
    replace fuel with (6 + (fuel - 6))%nat at 1 by (simpl in Hf; lia).
    rewrite parse_value_todo.
    cbn [skip_ws]. change (is_json_ws 44) with false. cbv iota.
    change (44 =? 44) with true. cbv iota.
    change (stringify_todo u :: List.map stringify_todo ts)
      with (List.map stringify_todo (u :: ts)).
    rewrite IH by (simpl in Hf |- *; lia).
    reflexivity.
Qed.

Lemma parse_value_array (f : nat) (R : list N) :
  parse_value (S f) (91 :: 123 :: R)
  = match parse_elements f (123 :: R) with
    | POk vs rest => POk (JArray vs) rest
    | PError => PError
    | PFuel => PFuel
    end.
Proof. reflexivity. Qed.

Lemma join_comma_head (t : Todo) (ts : list Todo) (T : list N) :
  exists R, join_comma (List.map stringify_todo (t :: ts)) ++ T = 123 :: R.
Proof.
  destruct ts as [|u ts]; cbn [List.map].
  - cbn [join_comma]. rewrite stringify_todo_cons. eexists. reflexivity.
  - rewrite join_comma_cons2, <- app_assoc, stringify_todo_cons.
    eexists. reflexivity.
Qed.

Lemma parse_value_todos (c : list Todo) (fuel : nat) (T : list N) :
  (1 + 9 * length c <= fuel)%nat ->
  parse_value fuel (JSON_stringify c ++ T) = POk (todos_value c) T.
Proof.
  intros Hf. destruct fuel as [|fuel]; [lia|].
  unfold JSON_stringify, todos_value. change (str "[") with [91].
  change (str "]") with [93].
  destruct c as [|t ts].
  - reflexivity.
  - rewrite <- !app_assoc. cbn [app].
    pose proof (parse_elements_todos ts t fuel T) as He.
    destruct (join_comma_head t ts (93 :: T)) as [R HR].
    rewrite HR in He |- *.
    rewrite parse_value_array, He by (simpl in Hf |- *; lia).
    reflexivity.
Qed.

Lemma stringify_todo_length (t : Todo) : (7 <= length (stringify_todo t))%nat.
Proof.
  rewrite <- (app_nil_r (stringify_todo t)), stringify_todo_cons.
  simpl. lia.
Qed.

Lemma join_comma_length (ts : list Todo) :
  (7 * length ts <= length (join_comma (List.map stringify_todo ts)))%nat.
Proof.
  induction ts as [|t [|u ts] IH].
  - simpl. lia.
  - cbn [List.map join_comma length]. pose proof (stringify_todo_length t). lia.
  - cbn [List.map] in IH |- *. rewrite join_comma_cons2.
    rewrite length_app. cbn [length] in IH |- *.
    pose proof (stringify_todo_length t). lia.
Qed.

Lemma JSON_stringify_length (c : list Todo) :
  (2 + 7 * length c <= length (JSON_stringify c))%nat.
Proof.
  unfold JSON_stringify. rewrite !length_app.
  pose proof (join_comma_length c). simpl. lia.
Qed.

(** Parsing what [JSON.stringify] wrote for a task list gives the value
    of that list. *)
Lemma JSON_parse_stringify (c : list Todo) :
  JSON_parse (JSON_stringify c) = Some (todos_value c).
Proof.
  unfold JSON_parse.
  rewrite <- (app_nil_r (JSON_stringify c)) at 2.
  rewrite parse_value_todos; [reflexivity|].
  unfold parse_fuel. pose proof (JSON_stringify_length c). lia.
Qed.

Lemma as_Todo_value (t : Todo) : as_Todo (todo_value t) = Some t.
Proof. destruct t. reflexivity. Qed.

Lemma as_Todos_value (c : list Todo) : as_Todos (todos_value c) = Some c.
Proof.
  unfold todos_value. simpl.
  induction c as [|t c IH]; [reflexivity|].
  cbn [List.map as_Todos_list]. now rewrite as_Todo_value, IH.
Qed.

(* ------------------------------------------------------------------ *)
(** ** Loading and saving the task list *)

Lemma JSON_stringify_not_falsy (c : list Todo) : falsy (JSON_stringify c) = false.
Proof. reflexivity. Qed.

(** The cases of [loadTodos].  It never throws.  With a readable
    store it returns the empty sequence, logging nothing, when the key is
    absent or the stored text is empty; it logs the failure and returns the
    empty sequence when the stored text is not empty and is not JSON; and
    it returns the parsed value as it is, whatever its shape, when the
    stored text is JSON.  When reading the store throws it logs the failure
    and returns the empty sequence. *)
Theorem loadTodos_spec (w : World) :
  (exists v w', loadTodos w = (Return v, w'))
  /\ (storage_readable w = true ->
        (localStorage w !! STORAGE_ITEMS = None ->
           loadTodos w = (Return (JArray []), w))
        /\ (localStorage w !! STORAGE_ITEMS = Some [] ->
           loadTodos w = (Return (JArray []), w))
        /\ (forall raw, localStorage w !! STORAGE_ITEMS = Some raw ->
              raw <> [] -> JSON_parse raw = None ->
              loadTodos w
              = (Return (JArray []),
                 log_error "Failed to load todos from localStorage" SyntaxError w))
        /\ (forall raw v, localStorage w !! STORAGE_ITEMS = Some raw ->
              raw <> [] -> JSON_parse raw = Some v ->
              loadTodos w = (Return v, w)))
  /\ (storage_readable w = false ->
        loadTodos w
        = (Return (JArray []),
           log_error "Failed to load todos from localStorage" SecurityError w)).
Proof.
  unfold loadTodos, try_catch, bind, getItem, ret, throw, console_error.
  destruct (storage_readable w) eqn:Hr.
  - split; [|split; [intros _; repeat split|discriminate]].
    + destruct (localStorage w !! STORAGE_ITEMS) as [raw|]; [|eauto].
      destruct (falsy raw); [eauto|].
      destruct (JSON_parse raw); eauto.
    + intros H. now rewrite H.
    + intros H. now rewrite H.
    + intros raw H Hne Hp. rewrite H.
      destruct raw; [contradiction|]. cbn [falsy]. now rewrite Hp.
    + intros raw v H Hne Hp. rewrite H.
      destruct raw; [contradiction|]. cbn [falsy]. now rewrite Hp.
  - split; [eauto|]. split; [discriminate|]. reflexivity.
Qed.

Lemma loadTodos_spec_witness :
  loadTodos (world_with (Some (str "[{")) None)
  = (Return (JArray []),
     log_error "Failed to load todos from localStorage" SyntaxError
       (world_with (Some (str "[{")) None)).
Proof.
  apply (proj1 (proj2 (proj2 (proj1 (proj2
           (loadTodos_spec (world_with (Some (str "[{")) None))) eq_refl)))
         (str "[{")).
  - vm_compute. reflexivity.
  - vm_compute. discriminate.
  - vm_compute. reflexivity.
Defined.

(** C1. The defect: [loadTodos] is declared to return a task list and its
    [catch] aims at recovery, but the cast checks nothing, so stored text
    that is JSON and is no task list is handed on as parsed.  With the
    text of the array of the number 1 stored it returns that array, with
    the text of null stored it returns null; in both cases the stored text
    cannot be read as a sequence of tasks, nothing is logged, and the
    result is not the empty sequence. *)
Theorem loadTodos_unchecked_value :
  content_as_Todos (str "[1]") = None
  /\ loadTodos (world_with (Some (str "[1]")) None)
     = (Return (JArray [JNumber (str "1")]), world_with (Some (str "[1]")) None)
  /\ content_as_Todos (str "null") = None
  /\ loadTodos (world_with (Some (str "null")) None)
     = (Return JNull, world_with (Some (str "null")) None).
Proof. vm_compute. repeat split. Qed.

(** Falling back does not hold at that stored text. *)
Lemma load_falls_back_fails :
  ~ load_falls_back (world_with (Some (str "[1]")) None) (str "[1]").
Proof.
  unfold load_falls_back. intros H.
  destruct H as [err H]; try (vm_compute; reflexivity).
  vm_compute in H. discriminate H.
Qed.

(** C9. On a store that accepts the write and the read, saving a task
    list and loading it gives back the value of that list: the write
    succeeds, the load returns the array of the tasks' objects and logs
    nothing, and that array read at the type of a task sequence is the
    list that was saved. *)
Theorem save_then_load (c : list Todo) (w : World) :
  storage_writable w = true ->
  storage_readable w = true ->
  fst (saveTodos c w) = Return tt
  /\ loadTodos (snd (saveTodos c w))
     = (Return (todos_value c), snd (saveTodos c w))
  /\ as_Todos (todos_value c) = Some c
  /\ content_as_Todos (JSON_stringify c) = Some c.
Proof.
  intros Hw Hr.
  unfold saveTodos, try_catch, setItem. rewrite Hw. cbn [fst snd].
  split; [reflexivity|]. split; [|split].
  - unfold loadTodos, try_catch, bind, getItem, ret. cbn [storage_readable localStorage].
    rewrite Hr, lookup_insert_eq, JSON_stringify_not_falsy, JSON_parse_stringify.
    reflexivity.
  - apply as_Todos_value.
  - unfold content_as_Todos. rewrite JSON_parse_stringify. apply as_Todos_value.
Qed.

Lemma save_then_load_witness :
  loadTodos (snd (saveTodos [taskB; taskA] (world_with None None)))
  = (Return (todos_value [taskB; taskA]),
     snd (saveTodos [taskB; taskA] (world_with None None))).
Proof.
  apply (proj1 (proj2 (save_then_load [taskB; taskA] (world_with None None)
                         eq_refl eq_refl))).
Defined.

Lemma storage_keys_differ : STORAGE_THEME <> STORAGE_ITEMS.
Proof. vm_compute. discriminate. Qed.

(** After the state was persisted to a working store, a reload finds the
    task list and the theme of that state. *)
Lemma reload_restores (st : AppState) (w : World) :
  storage_writable w = true ->
  storage_readable w = true ->
  let w' := snd (persist st w) in
  loadTodos w' = (Return (todos_value (todos st)), w')
  /\ loadTheme w' = (Return (theme st), w').
Proof.
  intros Hw Hr.
  unfold persist, bind, saveTheme, saveTodos, try_catch, setItem.
  rewrite Hw. cbn [storage_writable storage_readable localStorage snd]. split.
  - unfold loadTodos, try_catch, bind, getItem, ret.
    cbn [storage_readable localStorage].
    rewrite Hr, lookup_insert_eq, JSON_stringify_not_falsy, JSON_parse_stringify.
    reflexivity.
  - unfold loadTheme, try_catch, bind, getItem, ret.
    cbn [storage_readable localStorage].
    rewrite Hr, lookup_insert_ne, lookup_insert_eq
      by (apply not_eq_sym, storage_keys_differ).
    destruct (theme st); reflexivity.
Qed.

(* ================================================================== *)
(** * Further properties of the component *)

(* ------------------------------------------------------------------ *)
(** ** The store adapter *)

Lemma saveTodos_eq (c : list Todo) (w : World) :
  saveTodos c w
  = if storage_writable w
    then (Return tt,
          {| localStorage := <[STORAGE_ITEMS := JSON_stringify c]> (localStorage w);
             storage_readable := storage_readable w;
             storage_writable := storage_writable w;
             console := console w |})
    else (Return tt,
          log_error "Failed to save todos to localStorage" QuotaExceededError w).
Proof.
  unfold saveTodos, try_catch, setItem, console_error.
  now destruct (storage_writable w).
Qed.

Lemma saveTheme_eq (t : Theme) (w : World) :
  saveTheme t w
  = if storage_writable w
    then (Return tt,
          {| localStorage := <[STORAGE_THEME := theme_literal t]> (localStorage w);
             storage_readable := storage_readable w;
             storage_writable := storage_writable w;
             console := console w |})
    else (Return tt,
          log_error "Failed to save theme to localStorage" QuotaExceededError w).
Proof.
  unfold saveTheme, try_catch, setItem, console_error.
  now destruct (storage_writable w).
Qed.

(** What [loadTodos] returns depends only on whether the store can be
    read and on what it holds under the task key. *)
Lemma loadTodos_value_ext (w w' : World) :
  storage_readable w = storage_readable w' ->
  localStorage w !! STORAGE_ITEMS = localStorage w' !! STORAGE_ITEMS ->
  fst (loadTodos w) = fst (loadTodos w').
Proof.
  intros Hr Hl.
  unfold loadTodos, try_catch, bind, getItem, ret, throw, console_error.
  rewrite <- Hr, <- Hl.
  destruct (storage_readable w); [|reflexivity].
  destruct (localStorage w !! STORAGE_ITEMS) as [raw|]; [|reflexivity].
  destruct (falsy raw); [reflexivity|].
  destruct (JSON_parse raw); reflexivity.
Qed.

Lemma loadTheme_value_ext (w w' : World) :
  storage_readable w = storage_readable w' ->
  localStorage w !! STORAGE_THEME = localStorage w' !! STORAGE_THEME ->
  fst (loadTheme w) = fst (loadTheme w').
Proof.
  intros Hr Hl.
  unfold loadTheme, try_catch, bind, getItem, ret, console_error.
  rewrite <- Hr, <- Hl.
  destruct (storage_readable w); [|reflexivity].
  destruct (localStorage w !! STORAGE_THEME) as [raw|]; [|reflexivity].
  destruct (str_eqb raw (str "dark")); [reflexivity|].
  destruct (str_eqb raw (str "light")); reflexivity.
Qed.

Lemma loadTodos_storage (w : World) :
  localStorage (snd (loadTodos w)) = localStorage w
  /\ storage_readable (snd (loadTodos w)) = storage_readable w
  /\ storage_writable (snd (loadTodos w)) = storage_writable w.
Proof.
  unfold loadTodos, try_catch, bind, getItem, ret, throw, console_error.
  destruct (storage_readable w) eqn:Hr; [|simpl; auto].
  destruct (localStorage w !! STORAGE_ITEMS) as [raw|]; [|simpl; auto].
  destruct (falsy raw); [simpl; auto|].
  destruct (JSON_parse raw); simpl; auto.
Qed.

Lemma loadTheme_storage (w : World) :
  localStorage (snd (loadTheme w)) = localStorage w
  /\ storage_readable (snd (loadTheme w)) = storage_readable w
  /\ storage_writable (snd (loadTheme w)) = storage_writable w.
Proof.
  unfold loadTheme, try_catch, bind, getItem, ret, console_error.
  destruct (storage_readable w) eqn:Hr; [|simpl; auto].
  destruct (localStorage w !! STORAGE_THEME) as [raw|]; [|simpl; auto].
  destruct (str_eqb raw (str "dark")); [simpl; auto|].
  destruct (str_eqb raw (str "light")); simpl; auto.
Qed.

(** X1. [saveTodos] never throws.  When the store accepts the write, the
    task key holds the serialized list afterwards, every other key holds
    what it held, and nothing is logged.  When the store refuses the
    write, the failure is logged, the store is left as it was, and a load
    returns what it returned before the save. *)
Theorem saveTodos_spec (c : list Todo) (w : World) :
  fst (saveTodos c w) = Return tt
  /\ (storage_writable w = true ->
        localStorage (snd (saveTodos c w)) !! STORAGE_ITEMS = Some (JSON_stringify c)
        /\ (forall k, k <> STORAGE_ITEMS ->
              localStorage (snd (saveTodos c w)) !! k = localStorage w !! k)
        /\ console (snd (saveTodos c w)) = console w)
  /\ (storage_writable w = false ->
        localStorage (snd (saveTodos c w)) = localStorage w
        /\ console (snd (saveTodos c w))
           = ("Failed to save todos to localStorage"%string, QuotaExceededError)
               :: console w
        /\ fst (loadTodos (snd (saveTodos c w))) = fst (loadTodos w)).
Proof.
  rewrite saveTodos_eq.
  destruct (storage_writable w) eqn:Hw; cbn [fst snd].
  - split; [reflexivity|]. split; [|discriminate]. intros _.
    cbn [localStorage console]. repeat split.
    + apply lookup_insert_eq.
    + intros k Hk. apply lookup_insert_ne. congruence.
  - split; [reflexivity|]. split; [discriminate|]. intros _.
    repeat split. now apply loadTodos_value_ext.
Qed.

Lemma saveTodos_spec_witness :
  localStorage (snd (saveTodos [taskA] world_denied)) = localStorage world_denied
  /\ console (snd (saveTodos [taskA] world_denied))
     = ("Failed to save todos to localStorage"%string, QuotaExceededError)
         :: console world_denied
  /\ fst (loadTodos (snd (saveTodos [taskA] world_denied)))
     = fst (loadTodos world_denied).
Proof.
  apply (proj2 (proj2 (saveTodos_spec [taskA] world_denied)) eq_refl).
Defined.

(** X2. On a store that accepts the write and the read, loading the theme
    after saving one returns the theme that was saved, and logs nothing. *)
Theorem theme_round_trip (t : Theme) (w : World) :
  storage_writable w = true ->
  storage_readable w = true ->
  loadTheme (snd (saveTheme t w)) = (Return t, snd (saveTheme t w)).
Proof.
  intros Hw Hr. rewrite saveTheme_eq, Hw. cbn [snd].
  unfold loadTheme, try_catch, bind, getItem, ret.
  cbn [storage_readable localStorage].
  rewrite Hr, lookup_insert_eq.
  destruct t; reflexivity.
Qed.

Lemma theme_round_trip_witness :
  loadTheme (snd (saveTheme Dark (world_with None None)))
  = (Return Dark, snd (saveTheme Dark (world_with None None))).
Proof.
  apply (theme_round_trip Dark (world_with None None) eq_refl eq_refl).
Defined.

(** X3. The two records are independent: saving the task list does not
    change what loading the theme returns, and saving the theme does not
    change what loading the task list returns, whatever the store holds
    and whether or not it accepts the access. *)
Theorem records_independent (c : list Todo) (t : Theme) (w : World) :
  fst (loadTheme (snd (saveTodos c w))) = fst (loadTheme w)
  /\ fst (loadTodos (snd (saveTheme t w))) = fst (loadTodos w).
Proof.
  rewrite saveTodos_eq, saveTheme_eq.
  destruct (storage_writable w); cbn [snd]; split.
  - apply loadTheme_value_ext; [reflexivity|].
    cbn [localStorage]. apply lookup_insert_ne, not_eq_sym, storage_keys_differ.
  - apply loadTodos_value_ext; [reflexivity|].
    cbn [localStorage]. apply lookup_insert_ne, storage_keys_differ.
  - now apply loadTheme_value_ext.
  - now apply loadTodos_value_ext.
Qed.

(** X4. Loading never writes: after [loadTodos] and after [loadTheme] the
    store holds what it held and accepts what it accepted (only the
    console can have grown), so a second load returns what the first
    returned. *)
Theorem loads_do_not_write (w : World) :
  localStorage (snd (loadTodos w)) = localStorage w
  /\ localStorage (snd (loadTheme w)) = localStorage w
  /\ fst (loadTodos (snd (loadTodos w))) = fst (loadTodos w)
  /\ fst (loadTheme (snd (loadTheme w))) = fst (loadTheme w)
  /\ fst (loadTodos (snd (loadTheme w))) = fst (loadTodos w).
Proof.
  destruct (loadTodos_storage w) as (H1 & H2 & _).
  destruct (loadTheme_storage w) as (H3 & H4 & _).
  repeat split; try assumption.
  - apply loadTodos_value_ext; [exact H2|now rewrite H1].
  - apply loadTheme_value_ext; [exact H4|now rewrite H3].
  - apply loadTodos_value_ext; [exact H4|now rewrite H3].
Qed.

(* ------------------------------------------------------------------ *)
(** ** Identifiers and the text of a new task *)

(** X5. Two generated ids are equal exactly when the two readings of the
    clock are equal and the random renderings agree on their characters 2
    to 8: the clock part of an id cannot be confused with the random
    part. *)
Theorem generateId_collision (d1 d2 : Draw) :
  generateId d1 = generateId d2
  <-> Date_now d1 = Date_now d2
      /\ slice 2 9 (Math_random_toString36 d1) = slice 2 9 (Math_random_toString36 d2).
Proof.
  split.
  - intros H. pose proof (generateId_clock d1 d2 H) as Hc. split; [exact Hc|].
    unfold generateId in H. rewrite Hc in H.
    apply app_inv_head in H. now apply app_inv_head in H.
  - intros [Hc Hs]. unfold generateId. now rewrite Hc, Hs.
Qed.

Lemma trimStart_split (s : list N) :
  exists p, s = p ++ trimStart s /\ Forall (fun c => is_js_space c = true) p.
Proof.
  induction s as [|a s (p & IH & Hp)]; simpl.
  - exists []. split; [reflexivity|constructor].
  - destruct (is_js_space a) eqn:E.
    + exists (a :: p). split; [simpl; now f_equal|now constructor].
    + exists []. split; [reflexivity|constructor].
Qed.

Lemma trimEnd_split (s : list N) :
  exists q, s = trimEnd s ++ q /\ Forall (fun c => is_js_space c = true) q.
Proof.
  unfold trimEnd. destruct (trimStart_split (rev s)) as (p & Hs & Hp).
  exists (rev p). split.
  - apply (f_equal (@rev N)) in Hs.
    now rewrite rev_involutive, rev_app_distr in Hs.
  - now apply Forall_rev.
Qed.

(** The input is some white space, the trimmed text, some white space. *)
Lemma trim_split (s : list N) :
  exists p q, s = p ++ trim s ++ q
    /\ Forall (fun c => is_js_space c = true) p
    /\ Forall (fun c => is_js_space c = true) q.
Proof.
  unfold trim. destruct (trimStart_split s) as (p & Hs & Hp).
  destruct (trimEnd_split (trimStart s)) as (q & Ht & Hq).
  exists p, q. split; [|split; assumption].
  now rewrite <- Ht.
Qed.

Lemma trimStart_fixed (s : list N) :
  (forall c r, s = c :: r -> is_js_space c = false) -> trimStart s = s.
Proof.
  destruct s as [|c r]; [reflexivity|]. intros H. simpl.
  now rewrite (H c r eq_refl).
Qed.

Lemma trim_idempotent (s : list N) : trim (trim s) = trim s.
Proof.
  destruct (trim_ends s) as [Hh Hl].
  unfold trim at 1. rewrite (trimStart_fixed (trim s)) by exact Hh.
  unfold trimEnd. rewrite trimStart_fixed; [apply rev_involutive|].
  intros c r H. apply (Hl c (rev r)).
  apply (f_equal (@rev N)) in H. now rewrite rev_involutive in H.
Qed.

Lemma addTodo_eq (d : Draw) (st : AppState) :
  (trim (inputValue st) = [] -> addTodo d st = st)
  /\ (trim (inputValue st) <> [] ->
        todos (addTodo d st)
        = {| id := generateId d; text := trim (inputValue st);
             completed := false; createdAt := toISOString (new_Date d) |}
            :: todos st).
Proof.
  unfold addTodo. destruct (trim (inputValue st)) as [|c r]; split; intros H;
    try reflexivity; try contradiction; discriminate.
Qed.

(** X6. [addTodo] leaves the state as it is exactly when every code unit
    of the input is white space (the empty input included); any other
    input changes the state. *)
Theorem addTodo_noop_iff_blank (d : Draw) (st : AppState) :
  addTodo d st = st
  <-> Forall (fun c => is_js_space c = true) (inputValue st).
Proof.
  rewrite <- trim_nil_iff. split.
  - intros H. destruct (trim (inputValue st)) as [|c r] eqn:E; [reflexivity|].
    exfalso. apply (f_equal (fun s => length (todos s))) in H.
    unfold addTodo in H. rewrite E in H. simpl in H. lia.
  - intros H. unfold addTodo. now rewrite H.
Qed.

(** X7. When the input is not blank, the text of the added task is the
    input without the white space around it: the input is white space,
    then the text, then white space, and the text is not empty and
    neither starts nor ends with white space (trimming it again changes
    nothing). *)
Theorem addTodo_text (d : Draw) (st : AppState) :
  trim (inputValue st) <> [] ->
  exists t p q,
    todos (addTodo d st) = t :: todos st
    /\ inputValue st = p ++ text t ++ q
    /\ Forall (fun c => is_js_space c = true) p
    /\ Forall (fun c => is_js_space c = true) q
    /\ clean_text (text t)
    /\ (forall c r, text t = c :: r -> is_js_space c = false)
    /\ (forall c r, text t = r ++ [c] -> is_js_space c = false).
Proof.
  intros H. destruct (trim_split (inputValue st)) as (p & q & Hs & Hp & Hq).
  destruct (addTodo_eq d st) as [_ Hadd].
  exists {| id := generateId d; text := trim (inputValue st);
            completed := false; createdAt := toISOString (new_Date d) |}, p, q.
  cbn [text]. repeat split; try assumption.
  - now apply Hadd.
  - apply trim_idempotent.
  - apply (proj1 (trim_ends (inputValue st))).
  - apply (proj2 (trim_ends (inputValue st))).
Qed.

Lemma addTodo_text_witness :
  exists t p q,
    todos (addTodo draw_half (setInputValue (str "  Buy groceries ") (state_of [])))
      = t :: todos (setInputValue (str "  Buy groceries ") (state_of []))
    /\ inputValue (setInputValue (str "  Buy groceries ") (state_of []))
       = p ++ text t ++ q
    /\ Forall (fun c => is_js_space c = true) p
    /\ Forall (fun c => is_js_space c = true) q
    /\ clean_text (text t)
    /\ (forall c r, text t = c :: r -> is_js_space c = false)
    /\ (forall c r, text t = r ++ [c] -> is_js_space c = false).
Proof.
  apply (addTodo_text draw_half (setInputValue (str "  Buy groceries ") (state_of []))).
  vm_compute. discriminate.
Defined.

(* ------------------------------------------------------------------ *)
(** ** The actions on the task list, alone and together *)

Lemma toggle_map_notin (i : list N) (c : list Todo) :
  i ∉ ids c ->
  List.map (fun t => if str_eqb (id t) i then flip_completed t else t) c = c.
Proof.
  induction c as [|u c IH]; intros H; simpl; [reflexivity|].
  unfold ids in H. simpl in H. apply not_elem_of_cons in H as [Hu Hc].
  rewrite (proj2 (str_eqb_neq (id u) i)) by congruence.
  f_equal. now apply IH.
Qed.

Lemma delete_filter_notin (i : list N) (c : list Todo) :
  i ∉ ids c ->
  List.filter (fun t => negb (str_eqb (id t) i)) c = c.
Proof.
  induction c as [|u c IH]; intros H; simpl; [reflexivity|].
  unfold ids in H. simpl in H. apply not_elem_of_cons in H as [Hu Hc].
  rewrite (proj2 (str_eqb_neq (id u) i)) by congruence.
  simpl. f_equal. now apply IH.
Qed.

Lemma elem_of_ids (c : list Todo) (t : Todo) : t ∈ c -> id t ∈ ids c.
Proof. intros H. unfold ids. now apply (list_elem_of_fmap_2 id). Qed.

Lemma ids_filter_sublist (f : Todo -> bool) (c : list Todo) :
  sublist (ids (List.filter f c)) (ids c).
Proof.
  unfold ids. induction c as [|u c IH]; simpl; [constructor|].
  destruct (f u); simpl; now constructor.
Qed.

Lemma ids_toggle (i : list N) (c : list Todo) :
  ids (List.map (fun t => if str_eqb (id t) i then flip_completed t else t) c)
  = ids c.
Proof.
  unfold ids. rewrite List.map_map. apply List.map_ext.
  intros t. now destruct (str_eqb (id t) i).
Qed.

(** X8. Deleting an id keeps exactly the subsequence of the tasks with
    another id, in their order: no task with the id is left, every other
    task stays, deleting the same id again changes nothing, and theme,
    filter and input are untouched. *)
Theorem deleteTodo_spec (i : list N) (st : AppState) :
  subsequence_where (fun t => id t <> i) (todos st) (todos (deleteTodo i st))
  /\ (forall t, t ∈ todos (deleteTodo i st) <-> t ∈ todos st /\ id t <> i)
  /\ deleteTodo i (deleteTodo i st) = deleteTodo i st
  /\ theme (deleteTodo i st) = theme st
  /\ filter (deleteTodo i st) = filter st
  /\ inputValue (deleteTodo i st) = inputValue st.
Proof.
  split; [|split; [|split; [apply deleteTodo_idempotent|]]].
  - eapply subsequence_where_ext; [|apply subsequence_where_filter].
    intros t. simpl. rewrite negb_true_iff. apply str_eqb_neq.
  - intros t. unfold deleteTodo, setTodos. cbn [todos].
    rewrite elem_of_filter_bool, negb_true_iff, str_eqb_neq. reflexivity.
  - destruct st. repeat split.
Qed.

(** X9. With pairwise distinct ids, toggling the id of a task of the list
    moves exactly one task between the two counts: an active task leaves
    the active count and joins the completed count, a completed task does
    the reverse. *)
Theorem toggleTodo_counts (i : list N) (t : Todo) (st : AppState) :
  NoDup (ids (todos st)) ->
  t ∈ todos st ->
  id t = i ->
  (completed t = false ->
     activeCount st = S (activeCount (toggleTodo i st))
     /\ completedCount (toggleTodo i st) = S (completedCount st))
  /\ (completed t = true ->
     activeCount (toggleTodo i st) = S (activeCount st)
     /\ completedCount st = S (completedCount (toggleTodo i st))).
Proof.
  destruct st as [c th fl iv]. unfold activeCount, completedCount, toggleTodo, setTodos.
  cbn [todos]. intros Hnd Hin Hid. subst i.
  induction c as [|u c IH]; [now apply elem_of_nil in Hin|].
  unfold ids in Hnd. simpl in Hnd. apply NoDup_cons in Hnd as [Hu Hnd].
  apply elem_of_cons in Hin as [<-|Hin].
  - cbn [List.map]. rewrite str_eqb_refl.
    rewrite (toggle_map_notin (id t) c Hu).
    destruct t as [ti tx tc td]. cbn [completed].
    split; intros ->; simpl; split; reflexivity.
  - assert (Hne : id u <> id t).
    { intros E. apply Hu. rewrite E. now apply elem_of_ids. }
    cbn [List.map]. rewrite (proj2 (str_eqb_neq (id u) (id t)) Hne).
    specialize (IH Hnd Hin). destruct IH as [IHf IHt].
    split; intros Hc; [destruct (IHf Hc) as [E1 E2]|destruct (IHt Hc) as [E1 E2]];
      simpl; destruct (completed u); simpl; lia.
Qed.

Lemma toggleTodo_counts_witness :
  activeCount (state_of [taskB; taskA])
  = S (activeCount (toggleTodo (id taskA) (state_of [taskB; taskA])))
  /\ completedCount (toggleTodo (id taskA) (state_of [taskB; taskA]))
     = S (completedCount (state_of [taskB; taskA])).
Proof.
  refine (proj1 (toggleTodo_counts (id taskA) taskA (state_of [taskB; taskA])
                   _ _ eq_refl) eq_refl).
  - apply (bool_decide_unpack _). vm_compute. exact I.
  - simpl. repeat constructor.
Defined.

(** X10. With pairwise distinct ids, deleting the id of a task of the list
    removes that task and no other: the list is one shorter and holds
    exactly the other tasks. *)
Theorem deleteTodo_exactly_one (i : list N) (t : Todo) (st : AppState) :
  NoDup (ids (todos st)) ->
  t ∈ todos st ->
  id t = i ->
  length (todos st) = S (length (todos (deleteTodo i st)))
  /\ (forall u, u ∈ todos (deleteTodo i st) <-> u ∈ todos st /\ u <> t).
Proof.
  destruct st as [c th fl iv]. unfold deleteTodo, setTodos. cbn [todos].
  intros Hnd Hin Hid. subst i. split.
  - induction c as [|u c IH]; [now apply elem_of_nil in Hin|].
    unfold ids in Hnd. simpl in Hnd. apply NoDup_cons in Hnd as [Hu Hnd].
    apply elem_of_cons in Hin as [<-|Hin].
    + cbn [List.filter]. rewrite str_eqb_refl. cbn [negb].
      now rewrite (delete_filter_notin (id t) c Hu).
    + assert (Hne : id u <> id t).
      { intros E. apply Hu. rewrite E. now apply elem_of_ids. }
      cbn [List.filter]. rewrite (proj2 (str_eqb_neq (id u) (id t)) Hne).
      cbn [negb length]. f_equal. now apply IH.
  - intros u. rewrite elem_of_filter_bool, negb_true_iff, str_eqb_neq.
    split; intros [Hu Hne]; (split; [exact Hu|]).
    + intros ->. now apply Hne.
    + intros E. apply Hne.
      clear Hne. induction c as [|v c IH]; [now apply elem_of_nil in Hin|].
      unfold ids in Hnd. simpl in Hnd. apply NoDup_cons in Hnd as [Hv Hnd].
      apply elem_of_cons in Hin as [->|Hin]; apply elem_of_cons in Hu as [->|Hu];
        try reflexivity.
      * exfalso. apply Hv. rewrite <- E. now apply elem_of_ids.
      * exfalso. apply Hv. rewrite E. now apply elem_of_ids.
      * now apply IH.
Qed.

Lemma deleteTodo_exactly_one_witness :
  length (todos (state_of [taskB; taskA]))
  = S (length (todos (deleteTodo (id taskB) (state_of [taskB; taskA]))))
  /\ (forall u, u ∈ todos (deleteTodo (id taskB) (state_of [taskB; taskA]))
                <-> u ∈ todos (state_of [taskB; taskA]) /\ u <> taskB).
Proof.
  refine (deleteTodo_exactly_one (id taskB) taskB (state_of [taskB; taskA])
            _ _ eq_refl).
  - apply (bool_decide_unpack _). vm_compute. exact I.
  - simpl. repeat constructor.
Defined.

Lemma filter_filter_same {A : Type} (f : A -> bool) (l : list A) :
  List.filter f (List.filter f l) = List.filter f l.
Proof.
  induction l as [|x l IH]; simpl; [reflexivity|].
  destruct (f x) eqn:E; simpl; [rewrite E; now f_equal|exact IH].
Qed.

Lemma filter_filter_none {A : Type} (f : A -> bool) (l : list A) :
  List.filter f (List.filter (fun x => negb (f x)) l) = [].
Proof.
  induction l as [|x l IH]; simpl; [reflexivity|].
  destruct (f x) eqn:E; simpl; [exact IH|]. now rewrite E.
Qed.

Lemma clearCompleted_facts (st : AppState) :
  completedCount (clearCompleted st) = 0%nat
  /\ activeCount (clearCompleted st) = activeCount st
  /\ length (todos (clearCompleted st)) = activeCount st.
Proof.
  destruct st as [c th fl iv].
  unfold completedCount, activeCount, clearCompleted, setTodos. cbn [todos].
  rewrite (filter_filter_none (fun t => completed t) c).
  rewrite (filter_filter_same (fun t => negb (completed t)) c).
  repeat split.
Qed.

(** X11. After clearing, no task is completed and the active tasks are
    all there: the completed count is zero, the active count is what it
    was and is the length of the list, the view under the Completed filter
    is empty, and clearing again changes nothing. *)
Theorem clearCompleted_counts (st : AppState) :
  completedCount (clearCompleted st) = 0%nat
  /\ activeCount (clearCompleted st) = activeCount st
  /\ length (todos (clearCompleted st)) = activeCount st
  /\ filteredTodos (setFilter Completed (clearCompleted st)) = []
  /\ clearCompleted (clearCompleted st) = clearCompleted st.
Proof.
  destruct st as [c th fl iv].
  unfold completedCount, activeCount, filteredTodos, clearCompleted, setTodos, setFilter.
  cbn [todos filter].
  rewrite (filter_filter_none (fun t => completed t) c).
  rewrite (filter_filter_same (fun t => negb (completed t)) c).
  repeat split.
Qed.

(** X12. When the input is not blank and the generated id is not yet in
    the list, the id names the new task alone: deleting it right after the
    add gives back the former list, and toggling it completes the new task
    and leaves the former list as it was. *)
Theorem add_then_act_on_new (d : Draw) (st : AppState) :
  trim (inputValue st) <> [] ->
  generateId d ∉ ids (todos st) ->
  todos (deleteTodo (generateId d) (addTodo d st)) = todos st
  /\ todos (toggleTodo (generateId d) (addTodo d st))
     = {| id := generateId d; text := trim (inputValue st);
          completed := true; createdAt := toISOString (new_Date d) |}
         :: todos st.
Proof.
  intros Hb Hf. destruct (addTodo_eq d st) as [_ Hadd]. specialize (Hadd Hb).
  unfold deleteTodo, toggleTodo, setTodos. cbn [todos]. rewrite Hadd. split.
  - cbn [List.filter id]. rewrite str_eqb_refl. cbn [negb].
    now apply delete_filter_notin.
  - cbn [List.map id]. rewrite str_eqb_refl.
    now rewrite (toggle_map_notin _ _ Hf).
Qed.

Lemma add_then_act_on_new_witness :
  todos (deleteTodo (generateId draw_later)
           (addTodo draw_later (setInputValue (str "B") (state_of [taskA]))))
  = todos (setInputValue (str "B") (state_of [taskA]))
  /\ todos (toggleTodo (generateId draw_later)
              (addTodo draw_later (setInputValue (str "B") (state_of [taskA]))))
     = {| id := generateId draw_later;
          text := trim (inputValue (setInputValue (str "B") (state_of [taskA])));
          completed := true;
          createdAt := toISOString (new_Date draw_later) |}
         :: todos (setInputValue (str "B") (state_of [taskA])).
Proof.
  refine (add_then_act_on_new draw_later (setInputValue (str "B") (state_of [taskA]))
            _ _).
  - vm_compute. discriminate.
  - apply (bool_decide_unpack _). vm_compute. exact I.
Defined.

(** X13. An added task is active and comes first: the active count grows
    by one and the completed count stays; under the All and the Active
    filter the new task is the first row of the view, before the former
    rows; under the Completed filter the view does not change. *)
Theorem addTodo_view (d : Draw) (st : AppState) :
  trim (inputValue st) <> [] ->
  activeCount (addTodo d st) = S (activeCount st)
  /\ completedCount (addTodo d st) = completedCount st
  /\ (filter st <> Completed ->
        filteredTodos (addTodo d st)
        = {| id := generateId d; text := trim (inputValue st);
             completed := false; createdAt := toISOString (new_Date d) |}
            :: filteredTodos st)
  /\ (filter st = Completed ->
        filteredTodos (addTodo d st) = filteredTodos st).
Proof.
  intros Hb. unfold activeCount, completedCount, filteredTodos.
  destruct (addTodo_eq d st) as [_ Hadd]. rewrite (Hadd Hb).
  assert (Hfl : filter (addTodo d st) = filter st).
  { unfold addTodo. destruct (falsy (trim (inputValue st))); reflexivity. }
  rewrite Hfl. repeat split.
  - intros Hne. destruct (filter st); [reflexivity|reflexivity|contradiction].
  - intros ->. reflexivity.
Qed.

Lemma addTodo_view_witness :
  activeCount (addTodo draw_later (setInputValue (str "B") (state_of [taskA])))
  = S (activeCount (setInputValue (str "B") (state_of [taskA]))).
Proof.
  refine (proj1 (addTodo_view draw_later
                   (setInputValue (str "B") (state_of [taskA])) _)).
  vm_compute. discriminate.
Defined.

(** X14. The theme button switches the theme: the new theme is the other
    one, pressing twice gives back the state, and the task list, the
    filter and the input are untouched. *)
Theorem toggleTheme_spec (st : AppState) :
  theme (toggleTheme st) <> theme st
  /\ toggleTheme (toggleTheme st) = st
  /\ todos (toggleTheme st) = todos st
  /\ filter (toggleTheme st) = filter st
  /\ inputValue (toggleTheme st) = inputValue st.
Proof.
  split; [|split; [apply toggleTheme_involutive|repeat split]].
  destruct st as [c [|] fl iv]; simpl; discriminate.
Qed.

Lemma filter_comm {A : Type} (f g : A -> bool) (l : list A) :
  List.filter f (List.filter g l) = List.filter g (List.filter f l).
Proof.
  induction l as [|x l IH]; simpl; [reflexivity|].
  destruct (f x) eqn:Ef, (g x) eqn:Eg; simpl; rewrite ?Ef, ?Eg, IH; reflexivity.
Qed.

Lemma filter_map_stable {A : Type} (p : A -> bool) (h : A -> A) (l : list A) :
  (forall x, p (h x) = p x) ->
  List.filter p (List.map h l) = List.map h (List.filter p l).
Proof.
  intros H. induction l as [|x l IH]; simpl; [reflexivity|].
  rewrite H. destruct (p x); simpl; now rewrite IH.
Qed.

Lemma id_toggled (i : list N) (t : Todo) :
  id (if str_eqb (id t) i then flip_completed t else t) = id t.
Proof. now destruct (str_eqb (id t) i). Qed.

(** X15. Toggles and deletions can be applied in either order: two
    toggles commute, two deletions commute, a toggle and a deletion
    commute, a deletion and clearing commute; and deleting an id after
    toggling it is deleting it. *)
Theorem actions_commute (i j : list N) (st : AppState) :
  toggleTodo i (toggleTodo j st) = toggleTodo j (toggleTodo i st)
  /\ deleteTodo i (deleteTodo j st) = deleteTodo j (deleteTodo i st)
  /\ deleteTodo i (toggleTodo j st) = toggleTodo j (deleteTodo i st)
  /\ clearCompleted (deleteTodo i st) = deleteTodo i (clearCompleted st)
  /\ deleteTodo i (toggleTodo i st) = deleteTodo i st.
Proof.
  destruct st as [c th fl iv].
  unfold toggleTodo, deleteTodo, clearCompleted, setTodos. cbn [todos theme filter inputValue].
  repeat split; f_equal.
  - rewrite !List.map_map. apply List.map_ext. intros t.
    destruct (str_eqb (id t) j) eqn:Ej, (str_eqb (id t) i) eqn:Ei;
      cbn [flip_completed id]; rewrite ?Ej, ?Ei; reflexivity.
  - apply filter_comm.
  - apply (filter_map_stable (fun t => negb (str_eqb (id t) i))).
    intros t. now rewrite id_toggled.
  - apply filter_comm.
  - induction c as [|t c IH]; simpl; [reflexivity|].
    rewrite id_toggled, IH.
    destruct (str_eqb (id t) i) eqn:E; simpl; reflexivity.
Qed.

Lemma filter_toggle_hidden (i : list N) (keep : bool) (c : list Todo) :
  (forall u, u ∈ c -> id u = i -> completed u = keep) ->
  List.filter (fun t => eqb (completed t) keep)
    (List.map (fun t => if str_eqb (id t) i then flip_completed t else t) c)
  = List.filter (fun t => negb (str_eqb (id t) i))
      (List.filter (fun t => eqb (completed t) keep) c).
Proof.
  induction c as [|t c IH]; intros H; simpl; [reflexivity|].
  rewrite IH by (intros u Hu; apply H; now constructor).
  destruct (str_eqb (id t) i) eqn:E.
  - pose proof (H t ltac:(constructor) (proj1 (str_eqb_eq _ _) E)) as Hc.
    cbn [flip_completed completed]. rewrite Hc.
    destruct keep; simpl; rewrite E; reflexivity.
  - destruct (eqb (completed t) keep); simpl; rewrite ?E; reflexivity.
Qed.

(** X16. In a filtered view a toggled task leaves the view: when every
    task with the id is active, toggling the id under the Active filter
    removes the rows with that id and keeps the other rows as they were;
    likewise for completed tasks under the Completed filter. *)
Theorem toggle_leaves_filtered_view (i : list N) (st : AppState) :
  ((forall u, u ∈ todos st -> id u = i -> completed u = false) ->
     filteredTodos (setFilter Active (toggleTodo i st))
     = List.filter (fun t => negb (str_eqb (id t) i))
         (filteredTodos (setFilter Active st)))
  /\ ((forall u, u ∈ todos st -> id u = i -> completed u = true) ->
     filteredTodos (setFilter Completed (toggleTodo i st))
     = List.filter (fun t => negb (str_eqb (id t) i))
         (filteredTodos (setFilter Completed st))).
Proof.
  destruct st as [c th fl iv].
  unfold filteredTodos, toggleTodo, setFilter, setTodos. cbn [todos filter].
  split; intros H.
  - rewrite !(List.filter_ext (fun t => negb (completed t))
                (fun t => eqb (completed t) false))
      by (intros t; now destruct (completed t)).
    apply (filter_toggle_hidden i false c H).
  - rewrite !(List.filter_ext (fun t => completed t)
                (fun t => eqb (completed t) true))
      by (intros t; now destruct (completed t)).
    apply (filter_toggle_hidden i true c H).
Qed.

Lemma toggle_leaves_filtered_view_witness :
  filteredTodos (setFilter Active (toggleTodo (id taskA) (state_of [taskB; taskA])))
  = List.filter (fun t => negb (str_eqb (id t) (id taskA)))
      (filteredTodos (setFilter Active (state_of [taskB; taskA]))).
Proof.
  refine (proj1 (toggle_leaves_filtered_view (id taskA) (state_of [taskB; taskA])) _).
  intros u Hu Hid. cbn [todos state_of] in Hu.
  apply elem_of_cons in Hu as [->|Hu].
  - vm_compute in Hid. discriminate Hid.
  - apply list_elem_of_singleton in Hu. now subst u.
Defined.

(* ------------------------------------------------------------------ *)
(** ** Invariants of the task list over a run of events *)

Lemma dispatch_fst (a : Action) (s : AppState * Browser) :
  fst (dispatch a s) = handle a (fst s).
Proof. reflexivity. Qed.

Lemma run_cons (a : Action) (acts : list Action) (s : AppState * Browser) :
  run (a :: acts) s = run acts (dispatch a s).
Proof. reflexivity. Qed.

Lemma handleKeyDown_cases (key : list N) (d : Draw) (st : AppState) :
  handleKeyDown key d st = addTodo d st \/ handleKeyDown key d st = st.
Proof. unfold handleKeyDown. destruct (str_eqb key (str "Enter")); auto. Qed.

(** One event and the task list: each task afterwards is a task from
    before, up to its completed flag, or the task the event added. *)
Lemma handle_provenance (a : Action) (st : AppState) (t' : Todo) :
  t' ∈ todos (handle a st) ->
  (exists t, t ∈ todos st /\ same_task t t')
  \/ (exists d, adds a st = Some d
        /\ t' = {| id := generateId d; text := trim (inputValue st);
                   completed := false; createdAt := toISOString (new_Date d) |}).
Proof.
  assert (Hsame : forall t, same_task t t) by (intros t; repeat split).
  assert (Hadd : forall d, t' ∈ todos (addTodo d st) ->
            (exists t, t ∈ todos st /\ same_task t t')
            \/ ((if falsy (trim (inputValue st)) then None else Some d) = Some d
                /\ t' = {| id := generateId d; text := trim (inputValue st);
                           completed := false;
                           createdAt := toISOString (new_Date d) |})).
  { intros d. unfold addTodo. destruct (falsy (trim (inputValue st))).
    - intros H. left. eauto.
    - cbn [todos setInputValue setTodos]. intros H.
      apply elem_of_cons in H as [->|H]; [right; auto|left; eauto]. }
  destruct a as [v|d|key d|i|i|f| |]; cbn [handle adds].
  - intros H. left. eauto.
  - intros H. destruct (Hadd d H) as [?|[? ?]]; [left|right]; eauto.
  - unfold handleKeyDown. destruct (str_eqb key (str "Enter")).
    + intros H. destruct (Hadd d H) as [?|[? ?]]; [left|right]; eauto.
    + intros H. left. eauto.
  - unfold toggleTodo, setTodos. cbn [todos]. intros H.
    apply list_elem_of_In, in_map_iff in H as (t & <- & Ht).
    left. exists t. split; [now apply list_elem_of_In|].
    destruct (str_eqb (id t) i); repeat split.
  - unfold deleteTodo, setTodos. cbn [todos]. intros H.
    apply elem_of_filter_bool in H as [H _]. left. eauto.
  - intros H. left. eauto.
  - unfold clearCompleted, setTodos. cbn [todos]. intros H.
    apply elem_of_filter_bool in H as [H _]. left. eauto.
  - intros H. left. eauto.
Qed.

Lemma adds_in_draws (a : Action) (st : AppState) (d : Draw) (acts : list Action) :
  adds a st = Some d -> d ∈ draws (a :: acts).
Proof.
  unfold draws. cbn [flat_map].
  destruct a; cbn [adds]; try discriminate.
  - destruct (falsy _); [discriminate|]. intros H. injection H as ->.
    cbn [app]. constructor.
  - destruct (str_eqb _ _); [|discriminate].
    destruct (falsy _); [discriminate|]. intros H. injection H as ->.
    cbn [app]. constructor.
Qed.

Lemma draws_cons (a : Action) (acts : list Action) (d : Draw) :
  d ∈ draws acts -> d ∈ draws (a :: acts).
Proof.
  unfold draws. cbn [flat_map]. intros H. apply elem_of_app. now right.
Qed.

Lemma clean_trim (s : list N) : trim s <> [] -> clean_text (trim s).
Proof. intros H. split; [exact H|apply trim_idempotent]. Qed.

Lemma adds_not_blank (a : Action) (st : AppState) (d : Draw) :
  adds a st = Some d -> trim (inputValue st) <> [].
Proof.
  intros H E. destruct a; cbn [adds] in H; try discriminate;
    rewrite E in H; cbn [falsy] in H;
    try destruct (str_eqb _ _); discriminate.
Qed.

(** X17. Tasks are created by adds and changed by toggles only: after any
    run of events, each task of the list either has the id, the text and
    the creation time of a task of the initial list, or has the id
    generated from the draw of one of the adds of the run, the creation
    time of that draw, a text that is not empty and has no white space at
    its ends. *)
Theorem run_provenance (acts : list Action) (st : AppState) (b : Browser) (t' : Todo) :
  t' ∈ todos (fst (run acts (st, b))) ->
  (exists t, t ∈ todos st /\ same_task t t')
  \/ (exists d, d ∈ draws acts
        /\ id t' = generateId d
        /\ createdAt t' = toISOString (new_Date d)
        /\ clean_text (text t')).
Proof.
  revert st b. induction acts as [|a acts IH]; intros st b H.
  - left. exists t'. split; [exact H|repeat split].
  - rewrite run_cons in H.
    destruct (dispatch a (st, b)) as [st1 b1] eqn:E.
    assert (Hst1 : st1 = handle a st).
    { apply (f_equal fst) in E. now rewrite dispatch_fst in E. }
    subst st1. apply IH in H as [(t & Ht & Hs)|(d & Hd & H1 & H2 & H3)].
    + apply handle_provenance in Ht as [(t0 & Ht0 & Hs0)|(d & Hd & ->)].
      * left. exists t0. split; [exact Ht0|].
        destruct Hs as (A1 & A2 & A3), Hs0 as (B1 & B2 & B3).
        repeat split; congruence.
      * right. exists d. destruct Hs as (A1 & A2 & A3). cbn in A1, A2, A3.
        split; [now apply (adds_in_draws a st)|].
        repeat split; try assumption.
        -- rewrite A2. now apply (adds_not_blank a st d).
        -- rewrite A2. apply trim_idempotent.
    + right. exists d. split; [now apply draws_cons|]. repeat split; try assumption.
      * apply H3.
      * apply H3.
Qed.

Lemma run_provenance_witness :
  (exists t, t ∈ todos (state_of [taskA]) /\ same_task t (flip_completed taskA))
  \/ (exists d, d ∈ draws [ClickCheckbox (id taskA)]
        /\ id (flip_completed taskA) = generateId d
        /\ createdAt (flip_completed taskA) = toISOString (new_Date d)
        /\ clean_text (text (flip_completed taskA))).
Proof.
  apply (run_provenance [ClickCheckbox (id taskA)] (state_of [taskA])
           browser_empty (flip_completed taskA)).
  vm_compute. constructor.
Defined.

Lemma run_fst (acts : list Action) (st : AppState) (b : Browser) :
  fst (run acts (st, b)) = fold_left (fun s a => handle a s) acts st.
Proof.
  revert st b. induction acts as [|a acts IH]; intros st b; [reflexivity|].
  rewrite run_cons. destruct (dispatch a (st, b)) as [st1 b1] eqn:E.
  apply (f_equal fst) in E. rewrite dispatch_fst in E. cbn [fst] in E. subst st1.
  rewrite IH. reflexivity.
Qed.

Lemma handle_clean (a : Action) (st : AppState) :
  Forall (fun t => clean_text (text t)) (todos st) ->
  Forall (fun t => clean_text (text t)) (todos (handle a st)).
Proof.
  intros H. apply Forall_forall. intros t' Ht'.
  apply handle_provenance in Ht' as [(t & Ht & (_ & E & _))|(d & Hd & ->)].
  - rewrite E. rewrite Forall_forall in H. now apply H.
  - cbn [text]. apply clean_trim. now apply (adds_not_blank a st d).
Qed.

(** X18. The texts stay clean: when every task of the list has a text
    that is not empty and has no white space at its ends, the same holds
    after any run of events, whatever was typed into the input. *)
Theorem run_texts_clean (acts : list Action) (st : AppState) (b : Browser) :
  Forall (fun t => clean_text (text t)) (todos st) ->
  Forall (fun t => clean_text (text t)) (todos (fst (run acts (st, b)))).
Proof.
  rewrite run_fst. revert st.
  induction acts as [|a acts IH]; intros st H; [exact H|].
  cbn [fold_left]. apply IH. now apply handle_clean.
Qed.

Lemma run_texts_clean_witness :
  Forall (fun t => clean_text (text t))
    (todos (fst (run [ChangeInput (str "  B "); KeyDown (str "Enter") draw_later;
                      ClickCheckbox (id taskA)]
                   (state_of [taskA], browser_empty)))).
Proof.
  apply (run_texts_clean _ (state_of [taskA]) browser_empty).
  cbn [todos state_of].
  constructor; [split; vm_compute; [discriminate|reflexivity]|constructor].
Defined.

Lemma handle_ids_unique (a : Action) (st : AppState) :
  NoDup (ids (todos st)) ->
  (forall d, adds a st = Some d -> generateId d ∉ ids (todos st)) ->
  NoDup (ids (todos (handle a st))).
Proof.
  intros Hnd Hfresh.
  assert (Hadd : forall d,
            ((if falsy (trim (inputValue st)) then None else Some d) = Some d ->
             generateId d ∉ ids (todos st)) ->
            NoDup (ids (todos (addTodo d st)))).
  { intros d Hd. unfold addTodo. destruct (falsy (trim (inputValue st))).
    - exact Hnd.
    - cbn [todos setInputValue setTodos]. unfold ids. cbn [List.map id].
      apply NoDup_cons. split; [now apply Hd|exact Hnd]. }
  destruct a as [v|d|key d|i|i|f| |]; cbn [handle adds] in *; try exact Hnd.
  - apply Hadd, Hfresh.
  - unfold handleKeyDown. destruct (str_eqb key (str "Enter")); [|exact Hnd].
    apply Hadd, Hfresh.
  - unfold toggleTodo, setTodos. cbn [todos]. now rewrite ids_toggle.
  - unfold deleteTodo, setTodos. cbn [todos].
    exact (sublist_NoDup _ _ Hnd (ids_filter_sublist _ _)).
  - unfold clearCompleted, setTodos. cbn [todos].
    exact (sublist_NoDup _ _ Hnd (ids_filter_sublist _ _)).
Qed.

(** X19. The ids stay pairwise distinct: when they are distinct in the
    initial list and every add of the run generates an id that is not in
    the list at that moment, they are distinct after the run.  Toggling,
    deleting and clearing never break distinctness. *)
Theorem run_ids_unique (acts : list Action) (st : AppState) (b : Browser) :
  NoDup (ids (todos st)) ->
  fresh_adds acts st ->
  NoDup (ids (todos (fst (run acts (st, b))))).
Proof.
  rewrite run_fst. revert st.
  induction acts as [|a acts IH]; intros st Hnd Hf; [exact Hnd|].
  cbn [fold_left]. destruct Hf as [Ha Hf].
  apply IH; [now apply handle_ids_unique|exact Hf].
Qed.

Lemma run_ids_unique_witness :
  NoDup (ids (todos (fst (run [ChangeInput (str "B"); ClickAdd draw_later;
                               ClickCheckbox (id taskA); ClickClearCompleted]
                            (state_of [taskA], browser_empty))))).
Proof.
  refine (run_ids_unique _ (state_of [taskA]) browser_empty _ _).
  - apply (bool_decide_unpack _). vm_compute. exact I.
  - cbn [fresh_adds adds handle]. repeat split; try discriminate.
    intros d Hd. vm_compute in Hd. injection Hd as <-.
    apply (bool_decide_unpack _). vm_compute. exact I.
Defined.

(* ------------------------------------------------------------------ *)
(** ** Effects: the class of the root and write-through persistence *)

Lemma elem_of_classList_add (c x : list N) (l : list (list N)) :
  x ∈ classList_add c l <-> x = c \/ x ∈ l.
Proof.
  unfold classList_add. destruct (bool_decide (c ∈ l)) eqn:E.
  - apply bool_decide_eq_true in E. split; [auto|]. intros [->|H]; assumption.
  - rewrite elem_of_app, list_elem_of_singleton. tauto.
Qed.

Lemma elem_of_classList_remove (c x : list N) (l : list (list N)) :
  x ∈ classList_remove c l <-> x <> c /\ x ∈ l.
Proof.
  unfold classList_remove.
  rewrite elem_of_filter_bool, negb_true_iff, str_eqb_neq. tauto.
Qed.

Lemma NoDup_classList_add (c : list N) (l : list (list N)) :
  NoDup l -> NoDup (classList_add c l).
Proof.
  intros H. unfold classList_add. destruct (bool_decide (c ∈ l)) eqn:E; [exact H|].
  apply bool_decide_eq_false in E. apply NoDup_app. repeat split.
  - exact H.
  - intros x Hx Hc. apply list_elem_of_singleton in Hc. now subst x.
  - apply NoDup_singleton.
Qed.

Lemma classList_add_twice (c : list N) (l : list (list N)) :
  classList_add c (classList_add c l) = classList_add c l.
Proof.
  unfold classList_add at 1.
  rewrite (bool_decide_eq_true_2 (c ∈ classList_add c l)); [reflexivity|].
  apply elem_of_classList_add. now left.
Qed.

Lemma themeEffect_dark (th : Theme) (b : Browser) :
  str "dark" ∈ rootClassList (themeEffect th b) <-> th = Dark.
Proof.
  destruct th; cbn [themeEffect rootClassList].
  - rewrite elem_of_classList_remove. split; [tauto|discriminate].
  - rewrite elem_of_classList_add. split; [reflexivity|]. intros _. now left.
Qed.

(** X20. After the effect on the theme the root has the class [dark]
    exactly when the theme is dark, whatever classes it had before and
    whether or not the store accepts the write; the other classes are
    kept, no class gets doubled, and running the effect again with the
    same theme changes no class. *)
Theorem themeEffect_classes (th : Theme) (b : Browser) :
  (str "dark" ∈ rootClassList (themeEffect th b) <-> th = Dark)
  /\ (forall c, c <> str "dark" ->
        (c ∈ rootClassList (themeEffect th b) <-> c ∈ rootClassList b))
  /\ (NoDup (rootClassList b) -> NoDup (rootClassList (themeEffect th b)))
  /\ rootClassList (themeEffect th (themeEffect th b))
     = rootClassList (themeEffect th b).
Proof.
  split; [apply themeEffect_dark|].
  destruct th; cbn [themeEffect rootClassList].
  - split; [|split].
    + intros c Hc. rewrite elem_of_classList_remove. tauto.
    + intros H. exact (sublist_NoDup _ _ H (filter_sublist _ _)).
    + apply filter_filter_same.
  - split; [|split].
    + intros c Hc. rewrite elem_of_classList_add. tauto.
    + apply NoDup_classList_add.
    + apply classList_add_twice.
Qed.

Lemma themeEffect_classes_witness :
  NoDup (rootClassList (themeEffect Dark (mkBrowser world_denied [str "dark"; str "x"]))).
Proof.
  refine (proj1 (proj2 (proj2 (themeEffect_classes Dark
            (mkBrowser world_denied [str "dark"; str "x"])))) _).
  apply (bool_decide_unpack _). vm_compute. exact I.
Defined.

Lemma todosEffect_store (ts : list Todo) (b : Browser) :
  storage_writable (world b) = true ->
  localStorage (world (todosEffect ts b)) !! STORAGE_ITEMS = Some (JSON_stringify ts)
  /\ localStorage (world (todosEffect ts b)) !! STORAGE_THEME
     = localStorage (world b) !! STORAGE_THEME
  /\ rootClassList (todosEffect ts b) = rootClassList b
  /\ storage_writable (world (todosEffect ts b)) = true.
Proof.
  intros Hw. unfold todosEffect. cbn [world rootClassList].
  rewrite saveTodos_eq, Hw. cbn [snd localStorage storage_writable].
  repeat split; try assumption.
  - apply lookup_insert_eq.
  - apply lookup_insert_ne, not_eq_sym, storage_keys_differ.
Qed.

Lemma themeEffect_store (th : Theme) (b : Browser) :
  storage_writable (world b) = true ->
  localStorage (world (themeEffect th b)) !! STORAGE_THEME = Some (theme_literal th)
  /\ localStorage (world (themeEffect th b)) !! STORAGE_ITEMS
     = localStorage (world b) !! STORAGE_ITEMS
  /\ storage_writable (world (themeEffect th b)) = true.
Proof.
  intros Hw. unfold themeEffect. cbn [world].
  rewrite saveTheme_eq, Hw. cbn [snd localStorage storage_writable].
  repeat split; try assumption.
  - apply lookup_insert_eq.
  - apply lookup_insert_ne, storage_keys_differ.
Qed.








Lemma exactly_Todo_value (t : Todo) : exactly_Todo (todo_value t) = Some t.
Proof. destruct t. reflexivity. Qed.

Lemma exactly_Todos_value (c : list Todo) : exactly_Todos (todos_value c) = Some c.
Proof.
  unfold todos_value. cbn [exactly_Todos].
  induction c as [|t c IH]; [reflexivity|].
  cbn [List.map exactly_Todos_list]. now rewrite exactly_Todo_value, IH.
Qed.

(** Only the values of task lists are read as task lists. *)
Lemma exactly_Todos_sound (v : json) (c : list Todo) :
  exactly_Todos v = Some c -> v = todos_value c.
Proof.
  destruct v as [| | | |vs|]; try discriminate. cbn [exactly_Todos].
  unfold todos_value. intros H. f_equal. revert c H.
  induction vs as [|v vs IH]; intros c H; cbn [exactly_Todos_list] in H.
  - injection H as <-. reflexivity.
  - destruct (exactly_Todo v) as [t|] eqn:Et; [|discriminate].
    destruct (exactly_Todos_list vs) as [ts|] eqn:Ets; [|discriminate].
    injection H as <-. cbn [List.map]. f_equal; [|now apply IH].
    clear IH Ets. unfold exactly_Todo in Et.
    destruct v as [| | | | |ms]; try discriminate.
    destruct ms as [|[k1 v1] [|[k2 v2] [|[k3 v3] [|[k4 v4] [|? ?]]]]];
      try discriminate;
      destruct v1; try discriminate; destruct v2; try discriminate;
      destruct v3; try discriminate; destruct v4; try discriminate.
    destruct (str_eqb k1 (str "id")) eqn:E1; [|discriminate].
    destruct (str_eqb k2 (str "text")) eqn:E2; [|discriminate].
    destruct (str_eqb k3 (str "completed")) eqn:E3; [|discriminate].
    destruct (str_eqb k4 (str "createdAt")) eqn:E4; [|discriminate].
    apply str_eqb_eq in E1, E2, E3, E4. subst.
    cbn [andb] in Et. injection Et as <-. reflexivity.
Qed.

Lemma initialValues_store_holds (st : AppState) (w : World) :
  storage_readable w = true ->
  store_holds st w ->
  initialValues w = (Return (todos_value (todos st), theme st), w).
Proof.
  intros Hr [Hi Ht].
  unfold initialValues, bind, ret.
  unfold loadTodos at 1. unfold try_catch, bind, getItem, ret.
  rewrite Hr, Hi, JSON_stringify_not_falsy, JSON_parse_stringify.
  unfold loadTheme, try_catch, bind, getItem, ret.
  rewrite Hr, Ht. now destruct (theme st).
Qed.

Lemma mountEffects_store_holds (st : AppState) (b : Browser) :
  store_holds st (world b) -> store_holds st (world (mountEffects st b)).
Proof.
  intros [Hi Ht]. unfold mountEffects, todosEffect, themeEffect. cbn [world].
  rewrite saveTheme_eq.
  destruct (storage_writable (world b)) eqn:Hw; cbn [snd];
    rewrite saveTodos_eq; cbn [storage_writable log_error]; rewrite ?Hw;
    cbn [snd log_error]; split; cbn [localStorage].
  - apply lookup_insert_eq.
  - rewrite lookup_insert_ne by (apply not_eq_sym, storage_keys_differ).
    apply lookup_insert_eq.
  - exact Hi.
  - exact Ht.
Qed.

(** X22. A reload restores the state: when the store can be read and
    holds the serialized task list and the theme literal of a state,
    then, whatever classes the root of the document has (none, in a fresh
    document), the two state cells are initialised with the value of that
    task list and with that theme and nothing is logged; read as a task
    list that value is the list of the state; and after the effects of
    the first render on that list and theme the root has the class [dark]
    exactly when the theme is dark and the store still holds the list and
    the theme. *)
Theorem reload_after_sync (st : AppState) (b : Browser) :
  storage_readable (world b) = true ->
  store_holds st (world b) ->
  initialValues (world b) = (Return (todos_value (todos st), theme st), world b)
  /\ as_Todos (todos_value (todos st)) = Some (todos st)
  /\ (str "dark" ∈ rootClassList (mountEffects (reloaded st) b) <-> theme st = Dark)
  /\ store_holds st (world (mountEffects (reloaded st) b)).
Proof.
  intros Hr Hs. split; [now apply initialValues_store_holds|].
  split; [apply as_Todos_value|]. split.
  - unfold mountEffects, todosEffect. cbn [rootClassList reloaded theme].
    apply themeEffect_dark.
  - apply (mountEffects_store_holds (reloaded st) b Hs).
Qed.

Lemma reload_after_sync_witness :
  initialValues (world browser_after_dark)
  = (Return (todos_value (todos state_dark), theme state_dark),
     world browser_after_dark)
  /\ as_Todos (todos_value (todos state_dark)) = Some (todos state_dark)
  /\ (str "dark" ∈ rootClassList (mountEffects (reloaded state_dark) browser_after_dark)
      <-> theme state_dark = Dark)
  /\ store_holds state_dark
       (world (mountEffects (reloaded state_dark) browser_after_dark)).
Proof.
  refine (reload_after_sync state_dark browser_after_dark _ _).
  - reflexivity.
  - split; vm_compute; reflexivity.
Defined.

Lemma loadTheme_returns (w : World) : exists th w', loadTheme w = (Return th, w').
Proof.
  unfold loadTheme, try_catch, bind, getItem, ret, console_error.
  destruct (storage_readable w); [|eauto].
  destruct (localStorage w !! STORAGE_THEME) as [raw|]; [|eauto].
  destruct (str_eqb raw (str "dark")); [eauto|].
  destruct (str_eqb raw (str "light")); eauto.
Qed.

(** X23. Mounting after a fall-back overwrites the store: whenever
    [loadTodos] falls back to the empty list (the key is absent, the
    stored text is empty or is not JSON, or the store cannot be read),
    the component starts with the empty list, filter All and empty input,
    and on a store that accepts writes the task key holds the text of the
    empty array right after mounting, in place of what it held. *)
Theorem mount_after_fallback (b : Browser) :
  storage_writable (world b) = true ->
  fst (loadTodos (world b)) = Return (JArray []) ->
  exists th b',
    mount b = Some ({| todos := []; theme := th; filter := All; inputValue := [] |}, b')
    /\ localStorage (world b') !! STORAGE_ITEMS = Some (str "[]").
Proof.
  intros Hw Hl. unfold mount, initialState, bind, ret.
  destruct (loadTodos_storage (world b)) as (_ & _ & W1).
  destruct (loadTodos (world b)) as [[v|e] w1] eqn:E1; cbn [fst snd] in *;
    [|discriminate].
  injection Hl as ->.
  destruct (loadTheme_returns w1) as (th & w2 & E2).
  destruct (loadTheme_storage w1) as (_ & _ & W2).
  rewrite E2 in W2 |- *. cbn [snd] in W2. cbn [exactly_Todos exactly_Todos_list].
  eexists th, _. split; [reflexivity|]. cbn [todos theme].
  apply todosEffect_store.
  apply themeEffect_store. cbn [world]. congruence.
Qed.

Lemma mount_after_fallback_witness :
  exists th b',
    mount (mkBrowser (world_with (Some (str "[{")) None) [])
    = Some ({| todos := []; theme := th; filter := All; inputValue := [] |}, b')
    /\ localStorage (world b') !! STORAGE_ITEMS = Some (str "[]").
Proof.
  refine (mount_after_fallback (mkBrowser (world_with (Some (str "[{")) None) []) _ _).
  - reflexivity.
  - vm_compute. reflexivity.
Defined.

(* ------------------------------------------------------------------ *)
(** ** What is rendered *)

Lemma length_zero_eqb {A : Type} (l : list A) :
  Nat.eqb (length l) 0 = true <-> l = [].
Proof. destruct l; simpl; split; congruence. Qed.

Lemma length_pos_ltb {A : Type} (l : list A) :
  Nat.ltb 0 (length l) = false <-> l = [].
Proof. destruct l; unfold Nat.ltb; simpl; split; try congruence; reflexivity. Qed.

Lemma filter_exists_pos {A : Type} (f : A -> bool) (l : list A) :
  Nat.ltb 0 (length (List.filter f l)) = true <-> exists x, x ∈ l /\ f x = true.
Proof.
  split.
  - destruct (List.filter f l) as [|x r] eqn:E; [discriminate|]. intros _.
    exists x. apply elem_of_filter_bool. rewrite E. constructor.
  - intros (x & Hx & Hf).
    assert (H : x ∈ List.filter f l) by now apply elem_of_filter_bool.
    destruct (List.filter f l); [now apply elem_of_nil in H|reflexivity].
Qed.

(** X24. Placeholder, rows and footer: the placeholder is rendered
    exactly when no row is, and it is given the current filter; the
    footer is left out exactly when the task list is empty, and then the
    placeholder is rendered under every filter; under the All filter the
    rows are the whole list, so the placeholder is rendered exactly when
    the footer is not. *)
Theorem render_placeholder_footer (st : AppState) :
  (rows (render st) = [] <-> empty_state (render st) = Some (filter st))
  /\ (rows (render st) <> [] <-> empty_state (render st) = None)
  /\ (footer (render st) = None <-> todos st = [])
  /\ (footer (render st) = None -> empty_state (render st) = Some (filter st))
  /\ (filter st = All ->
        rows (render st) = todos st
        /\ (empty_state (render st) = Some All <-> footer (render st) = None)).
Proof.
  unfold render. cbn [rows empty_state footer].
  assert (Hf : (if Nat.ltb 0 (length (todos st))
                then Some (decimal (N.of_nat (activeCount st)) ++ str " "
                           ++ (if Nat.eqb (activeCount st) 1 then str "item" else str "items")
                           ++ str " left",
                           Nat.ltb 0 (completedCount st))
                else None) = None <-> todos st = []).
  { rewrite <- length_pos_ltb.
    destruct (Nat.ltb 0 (length (todos st))); split; congruence. }
  assert (He : forall x : Filter,
             (if Nat.eqb (length (filteredTodos st)) 0 then Some x else None) = Some x
             <-> filteredTodos st = []).
  { intros x. rewrite <- length_zero_eqb.
    destruct (Nat.eqb (length (filteredTodos st)) 0); split; congruence. }
  split; [symmetry; apply He|]. split; [|split; [exact Hf|split]].
  - rewrite <- (He (filter st)).
    destruct (Nat.eqb (length (filteredTodos st)) 0); split; congruence.
  - intros H. apply He. apply Hf in H. unfold filteredTodos. now rewrite H.
  - intros HA. assert (Hr : filteredTodos st = todos st).
    { unfold filteredTodos. rewrite HA. now apply filter_all_true. }
    split; [exact Hr|]. rewrite Hf, <- Hr, <- HA. apply He.
Qed.

Lemma render_placeholder_footer_witness :
  empty_state (render (state_of [])) = Some (filter (state_of [])).
Proof.
  apply (proj1 (proj2 (proj2 (proj2 (render_placeholder_footer (state_of []))))) eq_refl).
Defined.

(** X25. The Clear Completed button is rendered exactly when some task is
    completed; clicking it leaves the text of the counter as it was and
    takes the button away, and takes the whole footer away when no active
    task is left. *)
Theorem render_clear_button (st : AppState) :
  ((exists txt, footer (render st) = Some (txt, true))
   <-> exists t, t ∈ todos st /\ completed t = true)
  /\ (forall txt flag, footer (render st) = Some (txt, flag) ->
        footer (render (clearCompleted st))
        = if Nat.eqb (activeCount st) 0 then None else Some (txt, false)).
Proof.
  split.
  - unfold render. cbn [footer]. split.
    + intros (txt & H).
      destruct (Nat.ltb 0 (length (todos st))); [|discriminate].
      injection H as _ H. unfold completedCount in H.
      now apply (filter_exists_pos (fun t => completed t)) in H.
    + intros (t & Ht & Hc).
      assert (Hpos : Nat.ltb 0 (completedCount st) = true).
      { unfold completedCount. apply (filter_exists_pos (fun t => completed t)). eauto. }
      assert (Hlen : Nat.ltb 0 (length (todos st)) = true).
      { destruct (todos st); [now apply elem_of_nil in Ht|reflexivity]. }
      rewrite Hlen, Hpos. eauto.
  - intros txt flag H.
    destruct (clearCompleted_facts st) as (C0 & CA & CL).
    unfold render in H |- *. cbn [footer] in H |- *.
    destruct (Nat.ltb 0 (length (todos st))); [|discriminate].
    injection H as <- _. rewrite C0, CA, CL.
    destruct (activeCount st); reflexivity.
Qed.

Lemma render_clear_button_witness :
  footer (render (clearCompleted (state_of [taskB; taskA])))
  = if Nat.eqb (activeCount (state_of [taskB; taskA])) 0 then None
    else Some (str "1 item left", false).
Proof.
  apply (proj2 (render_clear_button (state_of [taskB; taskA])) (str "1 item left") true).
  vm_compute. reflexivity.
Defined.

(** The typed initial state is the typed reading of the initial values. *)
Lemma initialState_initialValues (w : World) :
  initialState w
  = match initialValues w with
    | (Return (v, th), w') =>
        (Return (match exactly_Todos v with
                 | Some c => Some {| todos := c; theme := th;
                                     filter := All; inputValue := [] |}
                 | None => None
                 end), w')
    | (Throw e, w') => (Throw e, w')
    end.
Proof.
  unfold initialState, initialValues, bind, ret.
  destruct (loadTodos w) as [[v|e] w1]; [|reflexivity].
  destruct (loadTheme w1) as [[th|e] w2]; reflexivity.
Qed.
